(** * fromFilePath: a shallow embedding of the Moe plugin and its properties

    The plugin [fromFilePath.py] fills blank tag fields of a track from its
    file path, keeps "fake null" values for required fields that stay
    unknown, and strips those values again before and after tags are written.

    Conventions of the embedding.
    - A Python [str] is a Rocq [string]; every [ascii] stands for one code
      point below 256 (the Latin-1 range), which fixes what the regex
      classes [\d] and [\s] accept.
    - A [dict] with string keys is a [gmap string _]; the two null-field
      tables are association lists, because the hook iterates over them in
      insertion order.
    - Mutation of the field dicts and of the two module globals is explicit
      state; exceptions are outcomes that keep the state reached so far.
    - [log.debug] calls only observe and are left out. *)

From Stdlib Require Import ZArith Ascii String List Bool Lia.
From stdpp Require Import base option list gmap strings fin_maps.

Local Open Scope Z_scope.

(** ** Python values carried by the field sets *)

(** [datetime.date] as its three components. *)
Record Date := mkDate { year : Z; month : Z; day : Z }.

Definition date_eqb (a b : Date) : bool :=
  (year a =? year b) && (month a =? month b) && (day a =? day b).

(** [datetime.date.min] *)
Definition date_min : Date := mkDate 1 1 1.

Inductive PyVal :=
| PNone
| PStr (s : string)
| PInt (n : Z)
| PDate (d : Date).

(** Truth value testing: [None], the empty string and [0] are false; a date
    is always true. *)
Definition truthy (v : PyVal) : bool :=
  match v with
  | PNone => false
  | PStr s => negb (String.eqb s "")
  | PInt n => negb (n =? 0)
  | PDate _ => true
  end.

(** [a == b] *)
Definition py_eq (a b : PyVal) : bool :=
  match a, b with
  | PNone, PNone => true
  | PStr s, PStr t => String.eqb s t
  | PInt n, PInt m => n =? m
  | PDate d, PDate e => date_eqb d e
  | _, _ => false
  end.

(** [type(v) is int] *)
Definition is_int (v : PyVal) : bool :=
  match v with PInt _ => true | _ => false end.

(** Exceptions the hooks can raise. *)
Inductive exn :=
| KeyError (key : string)
| ValueError
| TypeError.

Inductive outcome (A : Type) :=
| Ret (a : A)
| Raise (e : exn).
Arguments Ret {A} a.
Arguments Raise {A} e.

(** ** Characters and [int(str)] *)

Definition code (c : ascii) : Z := Z.of_nat (nat_of_ascii c).

(** [\d] on code points below 256: the ASCII digits. *)
Definition is_digit (c : ascii) : bool := (48 <=? code c) && (code c <=? 57).

(** [\s], [str.isspace]: tab, LF, VT, FF, CR, FS, GS, RS, US, space, NEL,
    NBSP. *)
Definition is_space (c : ascii) : bool :=
  let n := code c in
  ((9 <=? n) && (n <=? 13)) || ((28 <=? n) && (n <=? 32))
  || (n =? 133) || (n =? 160).

Definition newline : ascii := ascii_of_nat 10.

Definition digit_val (c : ascii) : Z := code c - 48.

(** Value of a digit run read left to right, starting from [acc]. *)
Fixpoint decimal (acc : Z) (l : list ascii) : Z :=
  match l with
  | [] => acc
  | c :: l' => decimal (10 * acc + digit_val c) l'
  end.

(** [str.lstrip], [str.strip] *)
Fixpoint lstrip (l : list ascii) : list ascii :=
  match l with
  | c :: l' => if is_space c then lstrip l' else l
  | [] => []
  end.

Definition strip (l : list ascii) : list ascii :=
  rev (lstrip (rev (lstrip l))).

Definition underscore : ascii := "_"%char.

(** The digits of an integer literal body, where single underscores may
    stand between digits; [prev_digit] tells whether the previous character
    was a digit. [None] when the body is malformed. *)
Fixpoint literal_digits (prev_digit : bool) (l : list ascii)
  : option (list ascii) :=
  match l with
  | [] => if prev_digit then Some [] else None
  | c :: l' =>
      if is_digit c then
        match literal_digits true l' with
        | Some ds => Some (c :: ds)
        | None => None
        end
      else if Ascii.eqb c underscore then
        if prev_digit then literal_digits false l' else None
      else None
  end.

(** [sys.int_max_str_digits], the default limit of the str to int
    conversion. *)
Definition int_max_str_digits : nat := 4300.

(** [int(s)] for a string argument, base 10. *)
Definition py_int (s : string) : outcome Z :=
  let body := strip (list_ascii_of_string s) in
  let '(sign, rest) :=
    match body with
    | c :: r =>
        if Ascii.eqb c "-"%char then (-1, r)
        else if Ascii.eqb c "+"%char then (1, r)
        else (1, body)
    | [] => (1, body)
    end in
  match literal_digits false rest with
  | Some ds =>
      if (int_max_str_digits <? length ds)%nat then Raise ValueError
      else Ret (sign * decimal 0 ds)
  | None => Raise ValueError
  end.

(** ** The regular expressions of [_PATTERNS] *)

Inductive char_class :=
| CDigit                     (* \d *)
| CSpace                     (* \s *)
| CDot                       (* .  *)
| CSet (chars : list ascii). (* [...] *)

Definition class_mem (c : char_class) (ch : ascii) : bool :=
  match c with
  | CDigit => is_digit ch
  | CSpace => is_space ch
  | CDot => negb (Ascii.eqb ch newline)
  | CSet chars => existsb (Ascii.eqb ch) chars
  end.

(** The pieces the two patterns are made of. *)
Inductive re_item :=
| Bol                                        (* ^ *)
| Eol                                        (* $ *)
| Plus (c : char_class)                      (* c+ *)
| Named (name : string) (c : char_class).    (* (?P<name>c+) *)

Definition regex := list re_item.

(** [match.groupdict()]: group names with the text they captured, in the
    order of the groups. *)
Definition groupdict := list (string * string).

(** A greedy [c+] that has consumed [run] and still needs a character: it
    takes as many characters as it can and gives them back one at a time
    while the rest of the pattern, [k], fails. *)
Fixpoint greedy {R} (c : char_class)
    (k : list ascii -> list ascii -> option R)
    (run s : list ascii) : option R :=
  match s with
  | [] => None
  | ch :: s' =>
      if class_mem c ch then
        match greedy c k (run ++ [ch]) s' with
        | Some r => Some r
        | None => k (run ++ [ch]) s'
        end
      else None
  end.

(** [$] without MULTILINE: at the end, or before a final newline. *)
Definition at_end (s : list ascii) : bool :=
  match s with
  | [] => true
  | [ch] => Ascii.eqb ch newline
  | _ => false
  end.

(** Backtracking match of the items from position [pos], with [s] the text
    still ahead. *)
Fixpoint match_here (items : regex) (pos : nat) (s : list ascii)
    (g : groupdict) : option groupdict :=
  match items with
  | [] => Some g
  | Bol :: items' =>
      if (pos =? 0)%nat then match_here items' pos s g else None
  | Eol :: items' =>
      if at_end s then match_here items' pos s g else None
  | Plus c :: items' =>
      greedy c (fun run rest =>
                  match_here items' (pos + length run) rest g) [] s
  | Named name c :: items' =>
      greedy c (fun run rest =>
                  match_here items' (pos + length run) rest
                    (g ++ [(name, string_of_list_ascii run)])) [] s
  end.

(** [re.match(pattern, s)], reduced to the group dictionary of the match. *)
Definition re_match (pattern : regex) (s : string) : option groupdict :=
  match_here pattern 0 (list_ascii_of_string s) [].

Definition chars (s : string) : list ascii := list_ascii_of_string s.

(** The class [[\.\-_:]] of pattern 1. *)
Definition separators : char_class := CSet (chars ".-_:").

(** [^(?P<disc>\d+)[\.\-_:]+(?P<track_num>\d+)\s+(?P<title>.+)$] *)
Definition pattern_1 : regex :=
  [Bol; Named "disc" CDigit; Plus separators;
   Named "track_num" CDigit; Plus CSpace; Named "title" CDot; Eol].

(** [^(?P<track_num>\d+)\s+(?P<title>.+)$] *)
Definition pattern_2 : regex :=
  [Bol; Named "track_num" CDigit; Plus CSpace; Named "title" CDot; Eol].

(** Sorted by priority: the first match is used. *)
Definition _PATTERNS : list regex := [pattern_1; pattern_2].

(** ** Paths *)

(** A pure POSIX path: its anchor and the components after it. *)
Record Path := mkPath { anchor : string; tail_parts : list string }.

(** [path.name] *)
Definition name (p : Path) : string := List.last (tail_parts p) "".

(** [path.parent] *)
Definition parent (p : Path) : Path :=
  mkPath (anchor p) (removelast (tail_parts p)).

(** [s.rfind(c)]: the last index of [c], or -1. *)
Fixpoint rfind (c : ascii) (s : string) : Z :=
  match s with
  | EmptyString => -1
  | String a s' =>
      let r := rfind c s' in
      if 0 <=? r then r + 1
      else if Ascii.eqb a c then 0 else -1
  end.

Definition len (s : string) : Z := Z.of_nat (String.length s).

(** [path.stem] *)
Definition stem (p : Path) : string :=
  let nm := name p in
  let i := rfind "."%char nm in
  if (0 <? i) && (i <? len nm - 1) then substring 0 (Z.to_nat i) nm
  else nm.

(** ** Path Field Guesser *)

Definition _GUESS_TAGS : bool := true.

(** The [for pattern in _PATTERNS] loop with its [break]: the groups of the
    first pattern that matches are written over [fields]
    ([match[i]] is the entry of [i] in [groupdict()]). *)
Fixpoint guess_loop (patterns : list regex) (filename : string)
    (fields : gmap string string) : gmap string string :=
  match patterns with
  | [] => fields
  | pattern :: patterns' =>
      match re_match pattern filename with
      | Some matchDict =>
          foldl (fun f iv => <[iv.1 := iv.2]> f) fields matchDict
      | None => guess_loop patterns' filename fields
      end
  end.

Definition guess_fields (path : Path) : gmap string string :=
  let filename := stem path in
  let fields : gmap string string :=
    <["album_title" := name (parent path)]> (<["title" := filename]> ∅) in
  guess_loop _PATTERNS filename fields.

(** ** State and exceptions of the hooks *)

(** What the read hook can change: the two field dicts it is handed, and the
    module globals [_null_track_num_count] and [_last_added_album]. *)
Record state := mkState {
  track_fields : gmap string PyVal;
  album_fields : gmap string PyVal;
  _null_track_num_count : Z;
  _last_added_album : PyVal
}.

(** A computation reads and changes the state and returns or raises; a
    raise keeps the changes made before it. *)
Definition M (A : Type) : Type := state -> outcome A * state.

Definition M_ret {A} (a : A) : M A := fun st => (Ret a, st).

Definition M_bind {A B} (k : A -> M B) (m : M A) : M B :=
  fun st =>
    match m st with
    | (Ret a, st') => k a st'
    | (Raise e, st') => (Raise e, st')
    end.

#[global] Instance M_mret : MRet M := @M_ret.
#[global] Instance M_mbind : MBind M := @M_bind.

Definition lift {A} (o : outcome A) : M A := fun st => (o, st).

(** [track_fields[key]] *)
Definition get_track (key : string) : M PyVal :=
  fun st =>
    match track_fields st !! key with
    | Some v => (Ret v, st)
    | None => (Raise (KeyError key), st)
    end.

(** [track_fields[key] = v] *)
Definition set_track (key : string) (v : PyVal) : M unit :=
  fun st =>
    (Ret tt, mkState (<[key := v]> (track_fields st)) (album_fields st)
               (_null_track_num_count st) (_last_added_album st)).

(** [album_fields[key]] *)
Definition get_album (key : string) : M PyVal :=
  fun st =>
    match album_fields st !! key with
    | Some v => (Ret v, st)
    | None => (Raise (KeyError key), st)
    end.

(** [album_fields[key] = v] *)
Definition set_album (key : string) (v : PyVal) : M unit :=
  fun st =>
    (Ret tt, mkState (track_fields st) (<[key := v]> (album_fields st))
               (_null_track_num_count st) (_last_added_album st)).

Definition get_count : M Z := fun st => (Ret (_null_track_num_count st), st).

Definition set_count (n : Z) : M unit :=
  fun st =>
    (Ret tt, mkState (track_fields st) (album_fields st) n
               (_last_added_album st)).

Definition get_last : M PyVal := fun st => (Ret (_last_added_album st), st).

Definition set_last (v : PyVal) : M unit :=
  fun st =>
    (Ret tt, mkState (track_fields st) (album_fields st)
               (_null_track_num_count st) v).

(** [for x in l: body(x)] *)
Fixpoint for_each {A} (l : list A) (body : A -> M unit) : M unit :=
  match l with
  | [] => mret tt
  | x :: l' => body x;; for_each l' body
  end.

(** ** Null-Field Policy *)

Definition table := list (string * PyVal).

Definition _NULL_TRACK_FIELDS : table :=
  [("title", PStr "<Unknown Track>");
   ("track_num", PInt (-1));
   ("disc", PInt 1)].

Definition _NULL_ALBUM_FIELDS : table :=
  [("title", PStr "Unknown Album");
   ("artist", PStr "Unknown Artist");
   ("date", PDate date_min);
   ("disc_total", PInt 1)].

(** [t[key]] for one of the tables *)
Fixpoint table_get (t : table) (key : string) : outcome PyVal :=
  match t with
  | [] => Raise (KeyError key)
  | (k, v) :: t' => if String.eqb k key then Ret v else table_get t' key
  end.

(** ** Field Reconciler *)

(** Body of the loop over [_NULL_TRACK_FIELDS]; [null] is
    [_NULL_TRACK_FIELDS[key]]. *)
Definition fixup_track (guessed_fields : gmap string string)
    (entry : string * PyVal) : M unit :=
  let '(key, null) := entry in
  v ← get_track key;
  if negb (truthy v) then
    set_track key null;;
    match (if _GUESS_TAGS then guessed_fields !! key else None) with
    | Some guess =>
        if is_int null then
          n ← lift (py_int guess);
          set_track key (PInt n)
        else set_track key (PStr guess)
    | None => mret tt
    end
  else mret tt.

(** Body of the loop over [_NULL_ALBUM_FIELDS]. *)
Definition fixup_album (guessed_fields : gmap string string)
    (entry : string * PyVal) : M unit :=
  let '(key, null) := entry in
  v ← get_album key;
  if negb (truthy v) then
    set_album key null;;
    let guessed_key := "album_" +:+ key in
    match (if _GUESS_TAGS then guessed_fields !! guessed_key else None) with
    | Some guess => set_album key (PStr guess)
    | None => mret tt
    end
  else mret tt.

(** The two fix-up loops of [read_custom_tags]. *)
Definition reconcile (track_path : Path) : M unit :=
  let guessed_fields :=
    if _GUESS_TAGS then guess_fields track_path else ∅ in
  for_each _NULL_TRACK_FIELDS (fixup_track guessed_fields);;
  for_each _NULL_ALBUM_FIELDS (fixup_album guessed_fields).

(** ** Track-Number Disambiguator *)

(** The last block of [read_custom_tags]. *)
Definition disambiguate : M unit :=
  track_num ← get_track "track_num";
  null ← lift (table_get _NULL_TRACK_FIELDS "track_num");
  if py_eq track_num null then
    last ← get_last;
    title ← get_album "title";
    (if negb (py_eq last title) then
       set_count 1;;
       title' ← get_album "title";
       set_last title'
     else
       count ← get_count;
       set_count (count + 1));;
    count ← get_count;
    set_track "track_num" (PInt (- count))
  else mret tt.

(** ** The read hook *)

Definition read_custom_tags (track_path : Path) : M unit :=
  reconcile track_path;;
  disambiguate.

(** The state of the module when it is loaded, around the dicts of a call. *)
Definition fresh (tf af : gmap string PyVal) : state :=
  mkState tf af 0 (PStr "").

(** Serial invocations of the read hook: each call brings its own path and
    dicts, the globals carry over. *)
Record call := mkCall {
  call_path : Path;
  call_track : gmap string PyVal;
  call_album : gmap string PyVal
}.

Definition invoke (count : Z) (last : PyVal) (c : call)
  : outcome unit * state :=
  read_custom_tags (call_path c)
    (mkState (call_track c) (call_album c) count last).

Fixpoint ingest (count : Z) (last : PyVal) (calls : list call)
  : list (outcome unit * state) :=
  match calls with
  | [] => []
  | c :: calls' =>
      let r := invoke count last c in
      r :: ingest (_null_track_num_count r.2) (_last_added_album r.2) calls'
  end.

(** ** Library items and the pre-persist hooks *)

(** A [Track] of the host library: the two attributes the plugin reads, and
    every other attribute by name. *)
Record Track := mkTrack {
  track_num : Z;
  path : Path;
  track_attrs : gmap string PyVal
}.

(** The other kinds of [LibItem]; the plugin never looks inside them. *)
Record Album := mkAlbum { album_attrs : gmap string PyVal }.
Record Extra := mkExtra { extra_attrs : gmap string PyVal }.

Inductive LibItem :=
| ITrack (t : Track)
| IAlbum (a : Album)
| IExtra (e : Extra).

(** Items are objects: a list holds references, and an assignment to an
    attribute changes the object for every holder of a reference. *)
Abbreviation ref := nat (only parsing).
Abbreviation heap := (gmap nat LibItem) (only parsing).

(** [item.track_num = n] *)
Definition set_track_num (t : Track) (n : Z) : Track :=
  mkTrack n (path t) (track_attrs t).

(** Body of the loop of [process_new_items]. *)
Definition new_item_step (h : heap) (item : ref) : heap :=
  match h !! item with
  | Some (ITrack t) =>
      if track_num t <? 0 then <[item := ITrack (set_track_num t 0)]> h
      else h
  | _ => h
  end.

Definition process_new_items (items : list ref) (h : heap) : heap :=
  foldl new_item_step h items.

(** Body of the loop of [process_changed_items]. *)
Definition changed_item_step (h : heap) (item : ref) : heap :=
  match h !! item with
  | Some (ITrack t) =>
      if track_num t <? 0 then <[item := ITrack (set_track_num t 0)]> h
      else h
  | _ => h
  end.

Definition process_changed_items (items : list ref) (h : heap) : heap :=
  foldl changed_item_step h items.

(** What either hook does to one item. *)
Definition normalized (i : LibItem) : LibItem :=
  match i with
  | ITrack t => if track_num t <? 0 then ITrack (set_track_num t 0) else i
  | _ => i
  end.

(** ** Tag Eraser *)

(** An audio file as [mediafile.MediaFile] shows it: the tag fields that
    have a value, and what kind of container holds them. The fields are
    views on the container's own tags, and some share one: year, month and
    day are read from the date, and a container of the ID3 kind keeps the
    track number and the track total in one frame, "2/10" in TRCK, where a
    container of the Vorbis kind keeps two comments. [packs_totals] tells
    the two kinds apart. *)
Record MediaFile := mkMediaFile {
  packs_totals : bool;
  tags : gmap string PyVal
}.

(** [audio_file !! name]: the value of a field that has one. *)
#[global] Instance media_lookup : Lookup string PyVal MediaFile :=
  fun name audio_file => tags audio_file !! name.

(** A field without a value reads as [None]. *)
Definition field (audio_file : MediaFile) (name : string) : PyVal :=
  default PNone (audio_file !! name).

(** [audio_file.track], [audio_file.date] *)
Definition track (audio_file : MediaFile) : PyVal := field audio_file "track".
Definition date (audio_file : MediaFile) : PyVal := field audio_file "date".

(** [v <= 0]: defined for an int only. *)
Definition le_zero (v : PyVal) : outcome bool :=
  match v with
  | PInt n => Ret (n <=? 0)
  | _ => Raise TypeError
  end.

Definition bind_outcome {A B} (o : outcome A) (k : A -> outcome B)
  : outcome B :=
  match o with
  | Ret a => k a
  | Raise e => Raise e
  end.

(** [track.track_num <= 0 or audio_file.track <= 0]; the right operand is
    evaluated only when the left one is false. *)
Definition no_track_num (t : Track) (audio_file : MediaFile) : outcome bool :=
  if track_num t <=? 0 then Ret true else le_zero (track audio_file).

(** The dict [nullTags] as it stands before [audio_file.update]. *)
Definition null_tags (t : Track) (audio_file : MediaFile)
  : outcome (gmap string PyVal) :=
  let nullTags : gmap string PyVal := ∅ in
  bind_outcome (no_track_num t audio_file) (fun c =>
  let nullTags := if c then <["track" := PNone]> nullTags else nullTags in
  bind_outcome (table_get _NULL_ALBUM_FIELDS "date") (fun null_date =>
  let nullTags :=
    if py_eq (date audio_file) null_date then <["date" := PNone]> nullTags
    else nullTags in
  Ret nullTags)).

(** The fields that lose their value when [delattr] removes the tag of
    [name], for the two fields the write hook can name: with the date go
    year, month and day; with the track frame of a container that packs
    the totals goes the track total. *)
Definition stored_with (audio_file : MediaFile) (name : string)
  : list string :=
  if String.eqb name "date" then ["year"; "month"; "day"]
  else if String.eqb name "track" then
    if packs_totals audio_file then ["tracktotal"] else []
  else [].

(** The fields a dict maps to [None]. *)
Definition deleted_fields (dict : gmap string PyVal) : list string :=
  omap (fun kv : string * PyVal =>
          match kv.2 with PNone => Some kv.1 | _ => None end)
       (map_to_list dict).

(** [name] is stored with a field that [dict] deletes. *)
Definition dropped (audio_file : MediaFile) (dict : gmap string PyVal)
    (name : string) : bool :=
  existsb (fun f => existsb (String.eqb name) (stored_with audio_file f))
    (deleted_fields dict).

(** What [update] does to one field that is not dropped: mapped to
    [None] it loses its value, mapped to a value it takes it, not in the
    dict it stays. *)
Definition update_field (old new : option PyVal) : option PyVal :=
  match new with
  | None => old
  | Some PNone => None
  | Some v => Some v
  end.

(** [MediaFile.update(dict)]: [delattr] for the fields mapped to [None],
    which takes the fields stored with them along, [setattr] for the
    others. *)
Definition update (audio_file : MediaFile) (dict : gmap string PyVal)
  : MediaFile :=
  mkMediaFile (packs_totals audio_file)
    (merge update_field
       (filter (fun kv : string * PyVal => dropped audio_file dict kv.1 = false)
          (tags audio_file))
       dict).

(** The write hook, from the file it opens to the file it saves. *)
Definition write_custom_tags (t : Track) (audio_file : MediaFile)
  : outcome MediaFile :=
  bind_outcome (null_tags t audio_file) (fun nullTags =>
  Ret (update audio_file nullTags)).

(** ** Vocabulary of the statements *)

(** A non-empty run of characters of one class. *)
Definition run_of (c : char_class) (run : list ascii) : Prop :=
  run ≠ [] ∧ forallb (class_mem c) run = true.

(** The text of a group: a non-empty run of the class. *)
Definition text_of (c : char_class) (x : string) : Prop :=
  x ≠ "" ∧ forallb (class_mem c) (chars x) = true.

(** A greedy [c+] cannot go on into [rest]: the text ends there or goes on
    with a character outside the class. *)
Definition stops (c : char_class) (rest : list ascii) : Prop :=
  match rest with
  | [] => True
  | ch :: _ => class_mem c ch = false
  end.

(** The baseline guesses of [guess_fields]. *)
Definition base_fields (path : Path) : gmap string string :=
  <["album_title" := name (parent path)]> (<["title" := stem path]> ∅).

(** The state with other track fields, other album fields. *)
Definition with_track (st : state) (tf : gmap string PyVal) : state :=
  mkState tf (album_fields st) (_null_track_num_count st)
    (_last_added_album st).

Definition with_album (st : state) (af : gmap string PyVal) : state :=
  mkState (track_fields st) af (_null_track_num_count st)
    (_last_added_album st).

(** A field is blank when it is false as a condition. *)
Definition blank (v : PyVal) : Prop := truthy v = false.

(** The keys of a table. *)
Definition keys (t : table) : list string := t.*1.

(** Every key of the table is a key of the dict. *)
Definition has_keys (t : table) (fields : gmap string PyVal) : Prop :=
  Forall (fun k => is_Some (fields !! k)) (keys t).

(** What the fix-up of one track field leaves in it: the tag data, the
    guess, or the table's value. *)
Definition filled (null : PyVal) (guess : option string) (v : PyVal)
  : outcome PyVal :=
  if truthy v then Ret v
  else
    match guess with
    | None => Ret null
    | Some s =>
        if is_int null then
          match py_int s with
          | Ret n => Ret (PInt n)
          | Raise e => Raise e
          end
        else Ret (PStr s)
    end.

(** The same for an album field. *)
Definition filled_album (null : PyVal) (guess : option string) (v : PyVal)
  : PyVal :=
  if truthy v then v
  else match guess with None => null | Some s => PStr s end.

(** Sample paths. *)
Definition disc_track_path : Path :=
  mkPath "/" ["music"; "Unknown Artist"; "01-02 Song.flac"].
Definition plain_path : Path := mkPath "/" ["music"; "My Album"; "Song.flac"].
Definition zero_track_path : Path :=
  mkPath "/" ["music"; "My Album"; "00 Intro.flac"].

(** Field dicts as the host hands them over. *)
Definition blank_track_fields : gmap string PyVal :=
  <["title" := PNone]> (<["track_num" := PNone]> (<["disc" := PNone]> ∅)).

Definition blank_album_fields : gmap string PyVal :=
  <["title" := PNone]> (<["artist" := PNone]>
    (<["date" := PNone]> (<["disc_total" := PNone]> ∅))).

Definition titled_track_fields : gmap string PyVal :=
  <["title" := PStr "Real Title"]> blank_track_fields.

Definition zero_track_fields : gmap string PyVal :=
  <["track_num" := PInt 0]> blank_track_fields.

(** A file at the root of the file system. *)
Definition root_path : Path := mkPath "/" ["Song.flac"].

(** The reading of "a track number of 0 never survives the read hook". *)
Definition zero_never_survives : Prop :=
  ∀ (p : Path) (st : state),
    has_keys _NULL_TRACK_FIELDS (track_fields st) →
    has_keys _NULL_ALBUM_FIELDS (album_fields st) →
    track_fields st !! "track_num" = Some (PInt 0) →
    track_fields (read_custom_tags p st).2 !! "track_num" ≠ Some (PInt 0).

(** The album title the Reconciler arrives at for a call is [a]: the
    title tag when there is one, else the name of the parent directory. *)
Definition album_is (a : PyVal) (c : call) : Prop :=
  ∃ v, call_album c !! "title" = Some v
       ∧ ((¬ blank v ∧ a = v)
          ∨ (blank v ∧ a = PStr (name (parent (call_path c))))).

(** A call for a track of album [a] that has no track number: the tag is
    blank and the path gives none. *)
Definition sentinel_call (a : PyVal) (c : call) : Prop :=
  has_keys _NULL_TRACK_FIELDS (call_track c)
  ∧ has_keys _NULL_ALBUM_FIELDS (call_album c)
  ∧ (∃ v, call_track c !! "track_num" = Some v ∧ blank v)
  ∧ guess_fields (call_path c) !! "track_num" = None
  ∧ album_is a c.

(** Three untagged files of one album. *)
Definition my_album_calls : list call :=
  [mkCall (mkPath "/" ["music"; "My Album"; "Song.flac"])
     blank_track_fields blank_album_fields;
   mkCall (mkPath "/" ["music"; "My Album"; "Other.flac"])
     blank_track_fields blank_album_fields;
   mkCall (mkPath "/" ["music"; "My Album"; "Third one.flac"])
     blank_track_fields blank_album_fields].

(** A track-number file name. *)
Definition track_path : Path :=
  mkPath "/" ["music"; "My Album"; "03 Another Track.flac"].

(** Untagged files of two albums, taken in turn. *)
Definition my_album_first : call :=
  mkCall (mkPath "/" ["music"; "My Album"; "Song.flac"])
    blank_track_fields blank_album_fields.

Definition other_album_between : call :=
  mkCall (mkPath "/" ["music"; "Other Album"; "Tune.flac"])
    blank_track_fields blank_album_fields.

Definition my_album_second : call :=
  mkCall (mkPath "/" ["music"; "My Album"; "Other.flac"])
    blank_track_fields blank_album_fields.

Definition interleaved_calls : list call :=
  [my_album_first; other_album_between; my_album_second].

(** Track fields with a track number tag, and with the tag -1. *)
Definition numbered_track_fields : gmap string PyVal :=
  <["track_num" := PInt 7]> blank_track_fields.

Definition minus_one_track_fields : gmap string PyVal :=
  <["track_num" := PInt (-1)]> blank_track_fields.

(** Sample tracks and files for the hooks around persisting. *)
Definition unnumbered_track : Track := mkTrack (-2) plain_path ∅.
Definition zeroed_track : Track := mkTrack 0 plain_path ∅.
Definition second_track : Track := mkTrack 2 disc_track_path ∅.

Definition sample_heap : gmap nat LibItem :=
  <[1%nat := ITrack unnumbered_track]>
    (<[2%nat := IAlbum (mkAlbum ∅)]> (<[3%nat := ITrack second_track]> ∅)).

(** An MP3 file whose track frame is "0/10", and a FLAC file with real
    tags. *)
Definition stale_file : MediaFile :=
  mkMediaFile true
    (<["track" := PInt 0]> (<["tracktotal" := PInt 10]>
       (<["title" := PStr "Song"]> ∅))).

Definition tagged_file : MediaFile :=
  mkMediaFile false
    (<["track" := PInt 2]> (<["date" := PDate (mkDate 2001 2 3)]>
       (<["year" := PInt 2001]> (<["month" := PInt 2]>
          (<["day" := PInt 3]> (<["title" := PStr "Song"]> ∅)))))).

(** * Properties *)

(** ** Sentinel Normalizer *)

Section Normalizer.

Implicit Types (h : heap) (items : list ref) (r : ref) (i : LibItem).

Lemma normalized_idemp i : normalized (normalized i) = normalized i.
Proof.
  destruct i as [t| |]; simpl; try reflexivity.
  destruct (track_num t <? 0) eqn:E; simpl; [reflexivity | by rewrite E].
Qed.

Lemma new_item_step_lookup h item r :
  new_item_step h item !! r =
  if decide (r = item) then normalized <$> h !! r else h !! r.
Proof.
  unfold new_item_step. case_decide as E.
  - subst r. destruct (h !! item) as [[t| |]|] eqn:L; simpl; rewrite ?L; try done.
    destruct (track_num t <? 0); [by rewrite lookup_insert_eq | done].
  - destruct (h !! item) as [[t| |]|]; try done.
    destruct (track_num t <? 0); [by rewrite lookup_insert_ne | done].
Qed.

Lemma process_new_items_lookup items h r :
  process_new_items items h !! r =
  if decide (r ∈ items) then normalized <$> h !! r else h !! r.
Proof.
  unfold process_new_items. revert h.
  induction items as [|x items IH]; intros h; cbn [foldl].
  - case_decide as E; [by apply not_elem_of_nil in E | done].
  - rewrite IH, new_item_step_lookup.
    destruct (decide (r = x)) as [->|Hne];
      destruct (decide (_ ∈ items)) as [Hin|Hnin];
      destruct (decide (_ ∈ x :: items)) as [Hin'|Hnin'];
      try done;
      try (exfalso;
           match goal with
           | H : _ ∈ _ :: _ |- _ => apply elem_of_cons in H; tauto
           | H : _ ∉ _ :: _ |- _ => apply H, elem_of_cons; tauto
           end).
    destruct (h !! x) as [i|]; simpl; [|done].
    by rewrite normalized_idemp.
Qed.

Lemma steps_agree h item : new_item_step h item = changed_item_step h item.
Proof. reflexivity. Qed.

Lemma hooks_agree items h :
  process_new_items items h = process_changed_items items h.
Proof.
  unfold process_new_items, process_changed_items. revert h.
  induction items as [|x items IH]; intros h; simpl; [done|].
  by rewrite IH, steps_agree.
Qed.

Lemma process_new_items_idemp items h :
  process_new_items items (process_new_items items h) =
  process_new_items items h.
Proof.
  apply map_eq; intros r. rewrite !process_new_items_lookup.
  case_decide; [|done].
  destruct (h !! r) as [i|]; simpl; [|done].
  by rewrite normalized_idemp.
Qed.

(** C7. Both pre-persist hooks are idempotent on every list of items, and
    on every object of the heap they change nothing but the [track_num]
    of a listed track, which goes from negative to 0; a [track_num] of 0
    or above stays, and albums and extras are left as they are. *)
Theorem normalizer_idempotent_and_frame items h :
  process_new_items items (process_new_items items h) =
    process_new_items items h
  ∧ process_changed_items items (process_changed_items items h) =
    process_changed_items items h
  ∧ ∀ hook, hook = process_new_items ∨ hook = process_changed_items →
    ∀ r,
      match h !! r, hook items h !! r with
      | Some (ITrack t), Some (ITrack t') =>
          path t' = path t ∧ track_attrs t' = track_attrs t
          ∧ track_num t' =
            (if decide (r ∈ items ∧ track_num t < 0) then 0
             else track_num t)
      | Some i, Some i' => i = i'
      | None, None => True
      | _, _ => False
      end.
Proof.
  split; [apply process_new_items_idemp|].
  split.
  { rewrite <- (hooks_agree items h).
    rewrite <- (hooks_agree items (process_new_items items h)).
    apply process_new_items_idemp. }
  intros hook Hhook r.
  assert (hook items h = process_new_items items h) as ->.
  { destruct Hhook as [->| ->]; [done | symmetry; apply hooks_agree]. }
  rewrite process_new_items_lookup.
  destruct (h !! r) as [[t| |]|] eqn:L; simpl;
    destruct (decide (r ∈ items)) as [Hin|Hnin]; simpl; try done.
  - destruct (track_num t <? 0) eqn:E; simpl.
    + apply Z.ltb_lt in E. case_decide; [done | tauto].
    + apply Z.ltb_ge in E. case_decide; [lia | done].
  - case_decide; [tauto | done].
Qed.

(** C8. [process_new_items] and [process_changed_items] are the same
    transformation of the heap, for every list of items. *)
Theorem new_and_changed_hooks_equal :
  ∀ items h, process_new_items items h = process_changed_items items h.
Proof. exact hooks_agree. Qed.

End Normalizer.

(** ** Python equality on the modelled values *)

Lemma date_eqb_eq (a b : Date) : date_eqb a b = true ↔ a = b.
Proof.
  destruct a as [y m d], b as [y' m' d']. unfold date_eqb; simpl.
  rewrite !andb_true_iff, !Z.eqb_eq. split.
  - intros [[-> ->] ->]. reflexivity.
  - intros [= -> -> ->]. auto.
Qed.

Lemma py_eq_eq (a b : PyVal) : py_eq a b = true ↔ a = b.
Proof.
  destruct a, b; simpl; try (split; [discriminate | congruence]).
  - tauto.
  - rewrite String.eqb_eq. split; congruence.
  - rewrite Z.eqb_eq. split; congruence.
  - rewrite date_eqb_eq. split; congruence.
Qed.

Lemma py_eq_refl (a : PyVal) : py_eq a a = true.
Proof. by apply py_eq_eq. Qed.

Lemma py_eq_neq (a b : PyVal) : py_eq a b = false ↔ a ≠ b.
Proof.
  rewrite <- not_true_iff_false, py_eq_eq. tauto.
Qed.

(** ** Tag Eraser *)

Section Eraser.

Implicit Types (t : Track) (audio_file : MediaFile).
Implicit Types (nullTags dict : gmap string PyVal).

Lemma le_zero_spec v :
  match le_zero v with
  | Ret b => ∃ n, v = PInt n ∧ (b = true ↔ n ≤ 0)
  | Raise e => e = TypeError ∧ ∀ n, v ≠ PInt n
  end.
Proof.
  destruct v; simpl; try (split; [reflexivity | congruence]).
  eexists; split; [reflexivity|]. apply Z.leb_le.
Qed.

Lemma no_track_num_spec t audio_file :
  match no_track_num t audio_file with
  | Ret b =>
      (b = true ↔
       track_num t ≤ 0 ∨ ∃ n, track audio_file = PInt n ∧ n ≤ 0)
      ∧ (track_num t ≤ 0 ∨ ∃ n, track audio_file = PInt n)
  | Raise e =>
      e = TypeError ∧ 0 < track_num t ∧ ∀ n, track audio_file ≠ PInt n
  end.
Proof.
  unfold no_track_num.
  destruct (track_num t <=? 0) eqn:E.
  - apply Z.leb_le in E. split; [|by left]. split; [by left | done].
  - apply Z.leb_gt in E.
    pose proof (le_zero_spec (track audio_file)) as H.
    destruct (le_zero (track audio_file)) as [b|e].
    + destruct H as (n & Hn & Hb). split; [|right; eauto].
      rewrite Hb. split; [right; eauto|].
      intros [?|(m & Hm & ?)]; [lia|]. congruence.
    + destruct H as [-> H]. split; [done|]. split; [lia | done].
Qed.

Lemma media_lookup_tags audio_file (k : string) :
  audio_file !! k = tags audio_file !! k.
Proof. reflexivity. Qed.

Lemma deleted_fields_elem dict (f : string) :
  f ∈ deleted_fields dict ↔ dict !! f = Some PNone.
Proof.
  unfold deleted_fields. rewrite list_elem_of_omap. split.
  - intros ([k v] & Hin & E). simpl in E.
    destruct v; try discriminate E. injection E as <-.
    by apply elem_of_map_to_list.
  - intros L. exists (f, PNone). split; [|done].
    by apply elem_of_map_to_list.
Qed.

(** A field is dropped exactly when it is stored with a field that the
    dict maps to [None]. *)
Lemma dropped_spec audio_file dict (k : string) :
  dropped audio_file dict k = true ↔
  ∃ f, dict !! f = Some PNone ∧ k ∈ stored_with audio_file f.
Proof.
  unfold dropped. rewrite existsb_exists. split.
  - intros (f & Hin & E). apply existsb_exists in E as (k' & Hin' & E').
    apply String.eqb_eq in E' as <-. exists f. split.
    + apply deleted_fields_elem. by apply list_elem_of_In.
    + by apply list_elem_of_In.
  - intros (f & L & Hin). exists f. split.
    + apply list_elem_of_In. by apply deleted_fields_elem.
    + apply existsb_exists. exists k. split; [by apply list_elem_of_In|].
      apply String.eqb_refl.
Qed.

Lemma stored_with_spec audio_file (f k : string) :
  k ∈ stored_with audio_file f ↔
  (f = "date" ∧ (k = "year" ∨ k = "month" ∨ k = "day"))
  ∨ (f = "track" ∧ packs_totals audio_file = true ∧ k = "tracktotal").
Proof.
  unfold stored_with.
  destruct (String.eqb_spec f "date") as [->|Hd].
  { rewrite !elem_of_cons. pose proof (not_elem_of_nil k).
    split; [intros; left; tauto|].
    intros [[_ ?]|[? _]]; [tauto | discriminate]. }
  destruct (String.eqb_spec f "track") as [->|Ht].
  { destruct (packs_totals audio_file).
    - rewrite !elem_of_cons. pose proof (not_elem_of_nil k).
      split; [intros; right; tauto|].
      intros [[? _]|(_ & _ & ?)]; [discriminate | tauto].
    - split; [by intros ?%not_elem_of_nil|].
      intros [[? _]|(_ & ? & _)]; discriminate. }
  split; [by intros ?%not_elem_of_nil|].
  intros [[? _]|[? _]]; done.
Qed.

(** The value of a field after [update]. *)
Lemma update_lookup audio_file dict (k : string) :
  update audio_file dict !! k =
  update_field (if dropped audio_file dict k then None else audio_file !! k)
    (dict !! k).
Proof.
  rewrite !media_lookup_tags. unfold update. cbn [tags].
  rewrite lookup_merge, map_lookup_filter. cbn [fst].
  destruct (tags audio_file !! k) as [v|]; simpl.
  - destruct (dropped audio_file dict k) eqn:E.
    + rewrite option_guard_False by congruence. by destruct (dict !! k).
    + rewrite option_guard_True by done. by destruct (dict !! k).
  - by destruct (dropped audio_file dict k), (dict !! k).
Qed.

(** A field mapped to [None] reads as [None] afterwards. *)
Lemma update_marked audio_file dict (k : string) :
  dict !! k = Some PNone → update audio_file dict !! k = None.
Proof. intros L. by rewrite update_lookup, L. Qed.

(** An empty dict changes nothing. *)
Lemma update_empty audio_file : update audio_file ∅ = audio_file.
Proof.
  destruct audio_file as [packs tg]. unfold update. cbn [packs_totals tags].
  f_equal. apply map_eq. intros k.
  change (update (mkMediaFile packs tg) ∅ !! k = mkMediaFile packs tg !! k).
  rewrite update_lookup, lookup_empty.
  destruct (dropped _ ∅ k) eqn:E; [|done].
  apply dropped_spec in E as (f & L & _). by rewrite lookup_empty in L.
Qed.

(** Deleting the track again, after an update that has deleted it. *)
Lemma update_track_again audio_file dict :
  dict !! "track" = Some PNone → dict !! "tracktotal" = None →
  update (update audio_file dict) (<["track" := PNone]> ∅) =
  update audio_file dict.
Proof.
  intros Lt Ltt.
  set (saved := update audio_file dict).
  assert (packs_totals saved = packs_totals audio_file) as Hp by done.
  assert (tags (update saved (<["track" := PNone]> ∅)) = tags saved) as E.
  { apply map_eq. intros k. rewrite <- !media_lookup_tags, update_lookup.
    destruct (decide (k = "track")) as [->|Hne].
    { rewrite lookup_insert_eq. simpl. symmetry. by apply update_marked. }
    rewrite lookup_insert_ne, lookup_empty by done. simpl.
    destruct (dropped saved _ k) eqn:D; [|done].
    apply dropped_spec in D as (f & Lf & Hin).
    apply stored_with_spec in Hin as [[-> _]|(-> & Hpk & ->)].
    { by rewrite lookup_insert_ne in Lf. }
    symmetry. unfold saved. rewrite update_lookup, Ltt.
    assert (dropped audio_file dict "tracktotal" = true) as ->; [|done].
    apply dropped_spec. exists "track". split; [done|].
    apply stored_with_spec. right. by rewrite <- Hp. }
  destruct (update saved _) as [p2 t2] eqn:E2. destruct saved as [p1 t1] eqn:E1.
  cbn [tags] in E. subst t2. f_equal.
  apply (f_equal packs_totals) in E2. cbn [packs_totals update] in E2.
  congruence.
Qed.



(** C9. With a positive [track_num] the hook evaluates
    [audio_file.track <= 0]; on a file without a track tag that comparison
    raises [TypeError] and so does the hook. The hook completes exactly
    when [track_num] is at most 0 or the file's track value is an int. *)
Theorem eraser_total_only_with_numeric_track t audio_file :
  (0 < track_num t →
   no_track_num t audio_file = le_zero (track audio_file))
  ∧ (0 < track_num t → audio_file !! "track" = None →
     write_custom_tags t audio_file = Raise TypeError)
  ∧ ((∃ saved, write_custom_tags t audio_file = Ret saved) ↔
     track_num t ≤ 0 ∨ ∃ n, track audio_file = PInt n)
  ∧ (write_custom_tags t audio_file = Raise TypeError ↔
     0 < track_num t ∧ ∀ n, track audio_file ≠ PInt n).
Proof.
  assert (0 < track_num t →
          no_track_num t audio_file = le_zero (track audio_file)) as Hev.
  { intros Hpos. unfold no_track_num.
    destruct (track_num t <=? 0) eqn:E; [|done].
    apply Z.leb_le in E. lia. }
  pose proof (no_track_num_spec t audio_file) as H.
  unfold write_custom_tags, null_tags in *.
  split; [done|]. split.
  - intros Hpos Hnone. rewrite (Hev Hpos).
    unfold track, field. by rewrite Hnone.
  - destruct (no_track_num t audio_file) as [b|e]; simpl.
    + destruct H as [_ H]. split.
      * split; [done | eauto].
      * split; [discriminate|]. intros [Hpos Hno].
        destruct H as [?|[n Hn]]; [lia | by destruct (Hno n)].
    + destruct H as (-> & Hpos & Hno). split.
      * split; [by intros [? ?]|].
        intros [?|[n Hn]]; [lia | by destruct (Hno n)].
      * done.
Qed.

End Eraser.

(** ** The regular expressions *)

Section Regex.

Implicit Types (c : char_class) (s run rest : list ascii).

Lemma run_of_snoc c run ch :
  forallb (class_mem c) run = true → class_mem c ch = true →
  forallb (class_mem c) (run ++ [ch]) = true.
Proof.
  intros H1 H2. rewrite forallb_app, H1. simpl. by rewrite H2.
Qed.

(** What a successful [c+] has done: it took a run off the front of the
    text and the rest of the pattern matched behind it. *)
Lemma greedy_sound {R} c (k : list ascii → list ascii → option R) s :
  ∀ run r,
    greedy c k run s = Some r →
    ∃ run' rest,
      s = run' ++ rest ∧ run_of c run' ∧ k (run ++ run') rest = Some r.
Proof.
  induction s as [|ch s IH]; intros run r; simpl; [discriminate|].
  destruct (class_mem c ch) eqn:Hch; [|discriminate].
  destruct (greedy c k (run ++ [ch]) s) as [r'|] eqn:Hg.
  - intros [= ->].
    destruct (IH _ _ Hg) as (run' & rest & -> & [Hne Hall] & Hk).
    exists (ch :: run'), rest. split; [done|]. split.
    + split; [done|]. simpl. by rewrite Hch.
    + by rewrite <- app_assoc in Hk.
  - intros Hk. exists [ch], s. split; [done|]. split; [|done].
    split; [done|]. simpl. by rewrite Hch.
Qed.

Lemma run_of_text c run :
  run_of c run →
  string_of_list_ascii run ≠ ""
  ∧ forallb (class_mem c) (chars (string_of_list_ascii run)) = true.
Proof.
  intros [Hne Hall]. unfold chars.
  rewrite list_ascii_of_string_of_list_ascii. split; [|done].
  destruct run; [done | discriminate].
Qed.

(** A match of pattern 1 splits the text into a digit run, a run of
    separators, a digit run, a run of whitespace and a run without
    newline, up to the end of the text or its final newline; the groups
    are the first, third and fifth run. *)
Lemma pattern_1_sound (x : string) (gd : groupdict) :
  re_match pattern_1 x = Some gd →
  ∃ disc sep num ws title rest,
    chars x = disc ++ sep ++ num ++ ws ++ title ++ rest
    ∧ run_of CDigit disc ∧ run_of separators sep
    ∧ run_of CDigit num ∧ run_of CSpace ws ∧ run_of CDot title
    ∧ at_end rest = true
    ∧ gd = [("disc", string_of_list_ascii disc);
            ("track_num", string_of_list_ascii num);
            ("title", string_of_list_ascii title)].
Proof.
  unfold re_match, pattern_1. cbn [match_here Nat.eqb]. intros H.
  apply greedy_sound in H as (disc & r1 & E1 & Hd & H).
  apply greedy_sound in H as (sep & r2 & E2 & Hs & H).
  apply greedy_sound in H as (num & r3 & E3 & Hn & H).
  apply greedy_sound in H as (ws & r4 & E4 & Hw & H).
  apply greedy_sound in H as (title & rest & E5 & Ht & H).
  destruct (at_end rest) eqn:Hend; [|discriminate].
  injection H as <-.
  exists disc, sep, num, ws, title, rest.
  unfold chars. rewrite E1, E2, E3, E4, E5. done.
Qed.

Lemma pattern_2_sound (x : string) (gd : groupdict) :
  re_match pattern_2 x = Some gd →
  ∃ num ws title rest,
    chars x = num ++ ws ++ title ++ rest
    ∧ run_of CDigit num ∧ run_of CSpace ws ∧ run_of CDot title
    ∧ at_end rest = true
    ∧ gd = [("track_num", string_of_list_ascii num);
            ("title", string_of_list_ascii title)].
Proof.
  unfold re_match, pattern_2. cbn [match_here Nat.eqb]. intros H.
  apply greedy_sound in H as (num & r3 & E3 & Hn & H).
  apply greedy_sound in H as (ws & r4 & E4 & Hw & H).
  apply greedy_sound in H as (title & rest & E5 & Ht & H).
  destruct (at_end rest) eqn:Hend; [|discriminate].
  injection H as <-.
  exists num, ws, title, rest.
  unfold chars. rewrite E3, E4, E5. done.
Qed.

(** A greedy [c+] in front of text it cannot take fails. *)
Lemma greedy_stuck {R} c (k : list ascii → list ascii → option R) run rest :
  stops c rest → greedy c k run rest = None.
Proof.
  destruct rest as [|ch rest]; simpl; [done|]. by intros ->.
Qed.

(** A greedy [c+] takes the whole run in front of it when it cannot go on
    behind the run and the rest of the pattern matches from there. *)
Lemma greedy_max {R} c (k : list ascii → list ascii → option R) run :
  ∀ run0 rest r,
    run_of c run → stops c rest →
    k (run0 ++ run) rest = Some r →
    greedy c k run0 (run ++ rest) = Some r.
Proof.
  induction run as [|ch run IH]; intros run0 rest r [Hne Hall] Hstop Hk;
    [done|].
  simpl in Hall. apply andb_true_iff in Hall as [Hch Hall].
  simpl. rewrite Hch.
  destruct run as [|ch' run'].
  - simpl. by rewrite (greedy_stuck c k _ rest Hstop).
  - rewrite (IH (run0 ++ [ch]) rest r); [done| |done|].
    + split; [done|]. exact Hall.
    + by rewrite <- app_assoc.
Qed.

Lemma stops_app c ch run rest :
  class_mem c ch = false → stops c ((ch :: run) ++ rest).
Proof. done. Qed.

Lemma class_disjoint ch :
  (class_mem separators ch = true → is_digit ch = false)
  ∧ (is_digit ch = true → class_mem separators ch = false)
  ∧ (is_space ch = true → is_digit ch = false)
  ∧ (Ascii.eqb ch newline = true → class_mem CDot ch = false).
Proof.
  destruct ch as [[] [] [] [] [] [] [] []]; vm_compute;
    split_and!; congruence.
Qed.

(** X3. Every text of the shape of pattern 1 matches it: a digit run, a run
    of separators, a digit run, a run of whitespace and a run without
    newline that does not begin with whitespace. The groups are the first,
    third and fifth run. *)
Lemma pattern_1_complete (disc sep num ws title : list ascii) :
  run_of CDigit disc → run_of separators sep → run_of CDigit num →
  run_of CSpace ws → run_of CDot title → stops CSpace title →
  re_match pattern_1
    (string_of_list_ascii (disc ++ sep ++ num ++ ws ++ title)) =
  Some [("disc", string_of_list_ascii disc);
        ("track_num", string_of_list_ascii num);
        ("title", string_of_list_ascii title)].
Proof.
  intros Hd Hs Hn Hw Ht Hstop.
  unfold re_match, pattern_1.
  rewrite list_ascii_of_string_of_list_ascii.
  cbn [match_here Nat.eqb].
  assert (∀ c run, run_of c run →
            ∃ ch run', run = ch :: run' ∧ class_mem c ch = true) as Hhead.
  { intros c [|ch run'] [Hne Hall]; [done|].
    simpl in Hall. apply andb_true_iff in Hall as [? _]. eauto. }
  destruct (Hhead _ _ Hs) as (cs & sep' & Es & Hcs).
  destruct (Hhead _ _ Hn) as (cn & num' & En & Hcn).
  destruct (Hhead _ _ Hw) as (cw & ws' & Ew & Hcw).
  destruct (class_disjoint cs) as (Hsd & _).
  destruct (class_disjoint cn) as (_ & Hds & _).
  destruct (class_disjoint cw) as (_ & _ & Hwd & _).
  apply greedy_max; [done| |].
  { rewrite Es. apply stops_app. exact (Hsd Hcs). }
  apply greedy_max; [done| |].
  { rewrite En. apply stops_app. exact (Hds Hcn). }
  apply greedy_max; [done| |].
  { rewrite Ew. apply stops_app. exact (Hwd Hcw). }
  apply greedy_max; [done|done|].
  rewrite <- (app_nil_r title) at 1.
  apply greedy_max; [done|done|]. done.
Qed.

(** "01", "-", "02", " ", "Song" put together match pattern 1. *)
Lemma pattern_1_complete_sample :
  re_match pattern_1
    (string_of_list_ascii
       (chars "01" ++ chars "-" ++ chars "02" ++ chars " " ++ chars "Song")) =
  Some [("disc", "01"); ("track_num", "02"); ("title", "Song")].
Proof.
  apply (pattern_1_complete (chars "01") (chars "-") (chars "02")
           (chars " ") (chars "Song"));
    try (split; [discriminate | reflexivity]).
  reflexivity.
Defined.

(** X4. Every text of the shape of pattern 2 matches it: a digit run, a run
    of whitespace and a run without newline that does not begin with
    whitespace. The groups are the first and the third run. *)
Lemma pattern_2_complete (num ws title : list ascii) :
  run_of CDigit num → run_of CSpace ws → run_of CDot title →
  stops CSpace title →
  re_match pattern_2 (string_of_list_ascii (num ++ ws ++ title)) =
  Some [("track_num", string_of_list_ascii num);
        ("title", string_of_list_ascii title)].
Proof.
  intros Hn Hw Ht Hstop.
  unfold re_match, pattern_2.
  rewrite list_ascii_of_string_of_list_ascii.
  cbn [match_here Nat.eqb].
  destruct ws as [|cw ws'] eqn:Ew; [by destruct Hw|]. rewrite <- Ew in *.
  assert (class_mem CSpace cw = true) as Hcw.
  { destruct Hw as [_ Hall]. rewrite Ew in Hall. simpl in Hall.
    by apply andb_true_iff in Hall as [? _]. }
  destruct (class_disjoint cw) as (_ & _ & Hwd & _).
  apply greedy_max; [done| |].
  { rewrite Ew. apply stops_app. exact (Hwd Hcw). }
  apply greedy_max; [done|done|].
  rewrite <- (app_nil_r title) at 1.
  apply greedy_max; [done|done|]. done.
Qed.

(** "03", " ", "Another Track" put together match pattern 2. *)
Lemma pattern_2_complete_sample :
  re_match pattern_2
    (string_of_list_ascii (chars "03" ++ chars " " ++ chars "Another Track")) =
  Some [("track_num", "03"); ("title", "Another Track")].
Proof.
  apply (pattern_2_complete (chars "03") (chars " ") (chars "Another Track"));
    try (split; [discriminate | reflexivity]).
  reflexivity.
Defined.

(** A text has one digit run at its front. *)
Lemma digit_prefix_unique (d : list ascii) :
  ∀ n r1 r2,
    forallb is_digit d = true → forallb is_digit n = true →
    stops CDigit r1 → stops CDigit r2 →
    d ++ r1 = n ++ r2 → d = n ∧ r1 = r2.
Proof.
  induction d as [|c d IH]; intros [|c' n] r1 r2 Hd Hn S1 S2 E;
    simpl in *.
  - done.
  - subst r1. simpl in S1. apply andb_true_iff in Hn as [Hc _]. congruence.
  - subst r2. simpl in S2. apply andb_true_iff in Hd as [Hc _]. congruence.
  - injection E as -> E.
    apply andb_true_iff in Hd as [_ Hd]. apply andb_true_iff in Hn as [_ Hn].
    destruct (IH n r1 r2 Hd Hn S1 S2 E) as [-> ->]. done.
Qed.

Lemma separator_not_space ch :
  class_mem separators ch = true → is_space ch = false.
Proof.
  destruct ch as [[] [] [] [] [] [] [] []]; vm_compute; congruence.
Qed.

(** No text matches both patterns: behind the leading digits pattern 1
    wants a separator and pattern 2 wants whitespace. *)
Lemma patterns_disjoint (x : string) (gd : groupdict) :
  re_match pattern_1 x = Some gd → re_match pattern_2 x = None.
Proof.
  intros M1. destruct (re_match pattern_2 x) as [gd2|] eqn:M2; [|done].
  exfalso.
  destruct (pattern_1_sound _ _ M1)
    as (disc & sep & num & ws & title & rest
        & E1 & [_ Hd] & [Hsne Hs] & _).
  destruct (pattern_2_sound _ _ M2)
    as (num2 & ws2 & title2 & rest2 & E2 & [_ Hn2] & [Hwne Hw] & _).
  destruct sep as [|cs sep']; [done|]. destruct ws2 as [|cw ws2']; [done|].
  simpl in Hs, Hw.
  apply andb_true_iff in Hs as [Hcs _]. apply andb_true_iff in Hw as [Hcw _].
  destruct (class_disjoint cs) as (Hsd & _).
  destruct (class_disjoint cw) as (_ & _ & Hwd & _).
  rewrite E1 in E2.
  destruct (digit_prefix_unique disc num2 _ _ Hd Hn2
              (stops_app CDigit cs sep' _ (Hsd Hcs))
              (stops_app CDigit cw ws2' _ (Hwd Hcw)) E2) as [_ E].
  injection E as -> _.
  pose proof (separator_not_space cw Hcs). simpl in Hcw. congruence.
Qed.

End Regex.

(** ** Path Field Guesser *)

Section Guesser.

Implicit Types (p : Path) (gd : groupdict).

Lemma guess_fields_unfold p :
  guess_fields p = guess_loop _PATTERNS (stem p) (base_fields p).
Proof. reflexivity. Qed.

(** The loop stops at the first pattern that matches: the patterns after
    it have no say. *)
Lemma guess_loop_first pattern lower x fields gd :
  re_match pattern x = Some gd →
  guess_loop (pattern :: lower) x fields =
  foldl (fun f iv => <[iv.1 := iv.2]> f) fields gd.
Proof. intros H. simpl. by rewrite H. Qed.

Lemma guess_loop_skip pattern lower x fields :
  re_match pattern x = None →
  guess_loop (pattern :: lower) x fields = guess_loop lower x fields.
Proof. intros H. simpl. by rewrite H. Qed.

Lemma pattern_1_groups x gd :
  re_match pattern_1 x = Some gd →
  ∃ d t ti,
    gd = [("disc", d); ("track_num", t); ("title", ti)]
    ∧ text_of CDigit d ∧ text_of CDigit t ∧ text_of CDot ti.
Proof.
  intros H. apply pattern_1_sound in H
    as (d & _ & t & _ & ti & _ & _ & Hd & _ & Ht & _ & Hti & _ & ->).
  eexists _, _, _. split; [reflexivity|].
  by split_and!; apply run_of_text.
Qed.

Lemma pattern_2_groups x gd :
  re_match pattern_2 x = Some gd →
  ∃ t ti,
    gd = [("track_num", t); ("title", ti)]
    ∧ text_of CDigit t ∧ text_of CDot ti.
Proof.
  intros H. apply pattern_2_sound in H
    as (t & _ & ti & _ & _ & Ht & _ & Hti & _ & ->).
  eexists _, _. split; [reflexivity|].
  by split_and!; apply run_of_text.
Qed.

(** The three shapes of a guess. *)
Lemma guess_fields_cases p :
  (∃ d t ti,
      re_match pattern_1 (stem p) =
        Some [("disc", d); ("track_num", t); ("title", ti)]
      ∧ text_of CDigit d ∧ text_of CDigit t ∧ text_of CDot ti
      ∧ guess_fields p =
        <["title" := ti]> (<["track_num" := t]> (<["disc" := d]>
          (base_fields p))))
  ∨ (∃ t ti,
      re_match pattern_1 (stem p) = None
      ∧ re_match pattern_2 (stem p) =
        Some [("track_num", t); ("title", ti)]
      ∧ text_of CDigit t ∧ text_of CDot ti
      ∧ guess_fields p =
        <["title" := ti]> (<["track_num" := t]> (base_fields p)))
  ∨ (re_match pattern_1 (stem p) = None
     ∧ re_match pattern_2 (stem p) = None
     ∧ guess_fields p = base_fields p).
Proof.
  rewrite guess_fields_unfold. unfold _PATTERNS.
  destruct (re_match pattern_1 (stem p)) as [gd|] eqn:M1.
  - left. rewrite (guess_loop_first _ _ _ _ _ M1).
    destruct (pattern_1_groups _ _ M1) as (d & t & ti & -> & ? & ? & ?).
    by exists d, t, ti.
  - right. rewrite (guess_loop_skip _ _ _ _ M1).
    destruct (re_match pattern_2 (stem p)) as [gd|] eqn:M2.
    + left. rewrite (guess_loop_first _ _ _ _ _ M2).
      destruct (pattern_2_groups _ _ M2) as (t & ti & -> & ? & ?).
      by exists t, ti.
    + right. by rewrite (guess_loop_skip _ _ _ _ M2).
Qed.

(** C5. When the stem of the path matches pattern 1, the stem is a digit
    run, a run of separators, a digit run, a run of whitespace and a run
    without newline (up to the end or a final newline), and the guess holds
    the first, third and fifth run, the captured groups, under "disc",
    "track_num" and "title" (the captured title in place of the stem), and
    the name of the parent directory under "album_title", and nothing else.
    The loop takes the first pattern that matches, so whatever patterns
    follow pattern 1 in the list, the result is the same. *)
Theorem guess_fields_pattern_1 p gd :
  re_match pattern_1 (stem p) = Some gd →
  ∃ d t ti,
    gd = [("disc", d); ("track_num", t); ("title", ti)]
    ∧ text_of CDigit d ∧ text_of CDigit t ∧ text_of CDot ti
    ∧ (∃ sep ws rest,
         chars (stem p) = chars d ++ sep ++ chars t ++ ws ++ chars ti ++ rest
         ∧ run_of separators sep ∧ run_of CSpace ws ∧ at_end rest = true)
    ∧ guess_fields p =
      <["disc" := d]> (<["track_num" := t]> (<["title" := ti]>
        (<["album_title" := name (parent p)]> ∅)))
    ∧ ∀ lower,
        guess_loop (pattern_1 :: lower) (stem p) (base_fields p) =
        guess_fields p.
Proof.
  intros M1.
  destruct (pattern_1_sound _ _ M1)
    as (disc & sep & num & ws & title & rest
        & E & Hd & Hs & Hn & Hw & Hti & Hend & ->).
  eexists _, _, _. split; [reflexivity|].
  split; [by apply run_of_text|]. split; [by apply run_of_text|].
  split; [by apply run_of_text|]. split_and!.
  - exists sep, ws, rest. unfold chars in *.
    by rewrite !list_ascii_of_string_of_list_ascii.
  - rewrite guess_fields_unfold. unfold _PATTERNS.
    rewrite (guess_loop_first _ _ _ _ _ M1). unfold base_fields. simpl.
    apply map_eq. intros k.
    destruct (decide (k = "title")) as [->|?]; [by simplify_map_eq|].
    destruct (decide (k = "track_num")) as [->|?]; [by simplify_map_eq|].
    destruct (decide (k = "disc")) as [->|?]; [by simplify_map_eq|].
    destruct (decide (k = "album_title")) as [->|?]; by simplify_map_eq.
  - intros lower. rewrite guess_fields_unfold. unfold _PATTERNS.
    by rewrite !(guess_loop_first _ _ _ _ _ M1).
Qed.

(** C6. When the stem matches neither pattern, the guess has exactly the
    keys "title", the stem, and "album_title", the name of the parent
    directory; it has no "track_num" and no "disc". *)
Theorem guess_fields_no_match p :
  re_match pattern_1 (stem p) = None →
  re_match pattern_2 (stem p) = None →
  guess_fields p =
    <["title" := stem p]> (<["album_title" := name (parent p)]> ∅)
  ∧ dom (guess_fields p) = {["title"; "album_title"]}
  ∧ guess_fields p !! "track_num" = None
  ∧ guess_fields p !! "disc" = None.
Proof.
  intros M1 M2.
  assert (guess_fields p =
          <["title" := stem p]> (<["album_title" := name (parent p)]> ∅))
    as E.
  { rewrite guess_fields_unfold. unfold _PATTERNS.
    rewrite (guess_loop_skip _ _ _ _ M1), (guess_loop_skip _ _ _ _ M2).
    simpl. unfold base_fields. by apply insert_insert_ne. }
  split; [done|]. rewrite E. split_and!.
  - rewrite !dom_insert_L, dom_empty_L. set_solver.
  - by simplify_map_eq.
  - by simplify_map_eq.
Qed.

(** "01-02 Song" gives disc "01", track number "02" and title "Song". *)
Lemma guess_fields_disc_track_sample :
  ∃ d t ti,
    [("disc", "01"); ("track_num", "02"); ("title", "Song")] =
    [("disc", d); ("track_num", t); ("title", ti)]
    ∧ text_of CDigit d ∧ text_of CDigit t ∧ text_of CDot ti
    ∧ (∃ sep ws rest,
         chars (stem disc_track_path) =
         chars d ++ sep ++ chars t ++ ws ++ chars ti ++ rest
         ∧ run_of separators sep ∧ run_of CSpace ws ∧ at_end rest = true)
    ∧ guess_fields disc_track_path =
      <["disc" := d]> (<["track_num" := t]> (<["title" := ti]>
        (<["album_title" := name (parent disc_track_path)]> ∅)))
    ∧ ∀ lower,
        guess_loop (pattern_1 :: lower) (stem disc_track_path)
          (base_fields disc_track_path) =
        guess_fields disc_track_path.
Proof. apply (guess_fields_pattern_1 disc_track_path). by vm_compute. Defined.

(** "Song" matches neither pattern. *)
Lemma guess_fields_plain_sample :
  guess_fields plain_path =
    <["title" := "Song"]> (<["album_title" := "My Album"]> ∅)
  ∧ dom (guess_fields plain_path) = {["title"; "album_title"]}
  ∧ guess_fields plain_path !! "track_num" = None
  ∧ guess_fields plain_path !! "disc" = None.
Proof. apply (guess_fields_no_match plain_path); by vm_compute. Defined.

(** X1. When the stem of the path matches pattern 2, the guess holds the
    two captured groups under "track_num" and "title" and the name of the
    parent directory under "album_title"; it has no "disc". *)
Theorem guess_fields_pattern_2 p gd :
  re_match pattern_2 (stem p) = Some gd →
  ∃ t ti,
    gd = [("track_num", t); ("title", ti)]
    ∧ text_of CDigit t ∧ text_of CDot ti
    ∧ guess_fields p =
      <["track_num" := t]> (<["title" := ti]>
        (<["album_title" := name (parent p)]> ∅))
    ∧ guess_fields p !! "disc" = None.
Proof.
  intros M2.
  assert (re_match pattern_1 (stem p) = None) as M1.
  { destruct (re_match pattern_1 (stem p)) as [gd1|] eqn:M1; [|done].
    pose proof (patterns_disjoint _ _ M1). congruence. }
  destruct (pattern_2_groups _ _ M2) as (t & ti & -> & Ht & Hti).
  exists t, ti. split; [done|]. split; [done|]. split; [done|].
  assert (guess_fields p =
          <["track_num" := t]> (<["title" := ti]>
            (<["album_title" := name (parent p)]> ∅))) as E.
  { rewrite guess_fields_unfold. unfold _PATTERNS.
    rewrite (guess_loop_skip _ _ _ _ M1), (guess_loop_first _ _ _ _ _ M2).
    unfold base_fields. simpl.
    apply map_eq. intros k.
    destruct (decide (k = "title")) as [->|?]; [by simplify_map_eq|].
    destruct (decide (k = "track_num")) as [->|?]; [by simplify_map_eq|].
    destruct (decide (k = "album_title")) as [->|?]; by simplify_map_eq. }
  split; [done|]. rewrite E. by simplify_map_eq.
Qed.

(** "03 Another Track" gives track number "03" and title "Another Track". *)
Lemma guess_fields_track_sample :
  ∃ t ti,
    [("track_num", "03"); ("title", "Another Track")] =
    [("track_num", t); ("title", ti)]
    ∧ text_of CDigit t ∧ text_of CDot ti
    ∧ guess_fields track_path =
      <["track_num" := t]> (<["title" := ti]>
        (<["album_title" := name (parent track_path)]> ∅))
    ∧ guess_fields track_path !! "disc" = None.
Proof. apply (guess_fields_pattern_2 track_path). by vm_compute. Defined.

(** X2. The order of the two patterns does not matter: no stem matches
    both, so the loop over the patterns in the other order makes the same
    guess for every path. *)
Theorem pattern_order_immaterial p :
  ¬ (is_Some (re_match pattern_1 (stem p))
     ∧ is_Some (re_match pattern_2 (stem p)))
  ∧ guess_loop [pattern_2; pattern_1] (stem p) (base_fields p) =
    guess_fields p.
Proof.
  split.
  - intros [[gd1 M1] [gd2 M2]].
    pose proof (patterns_disjoint _ _ M1). congruence.
  - rewrite guess_fields_unfold. unfold _PATTERNS.
    destruct (re_match pattern_1 (stem p)) as [gd1|] eqn:M1.
    + rewrite (guess_loop_skip _ _ _ _ (patterns_disjoint _ _ M1)).
      by rewrite !(guess_loop_first _ _ _ _ _ M1).
    + rewrite (guess_loop_skip pattern_1 _ _ _ M1).
      destruct (re_match pattern_2 (stem p)) as [gd2|] eqn:M2.
      * by rewrite !(guess_loop_first _ _ _ _ _ M2).
      * rewrite !(guess_loop_skip _ _ _ _ M2). simpl. by rewrite M1.
Qed.

(** X5. Every guess has a "title" and an "album_title", the latter the name
    of the parent directory; its other keys can only be "track_num" and
    "disc", and a guess with a "disc" has a "track_num". *)
Theorem guess_fields_keys p :
  is_Some (guess_fields p !! "title")
  ∧ guess_fields p !! "album_title" = Some (name (parent p))
  ∧ dom (guess_fields p) ⊆ {["title"; "album_title"; "track_num"; "disc"]}
  ∧ (is_Some (guess_fields p !! "disc") →
     is_Some (guess_fields p !! "track_num")).
Proof.
  destruct (guess_fields_cases p)
    as [(d & t & ti & _ & _ & _ & _ & ->)
       |[(t & ti & _ & _ & _ & _ & ->)|(_ & _ & ->)]];
    unfold base_fields;
    (split; [by simplify_map_eq|]); (split; [by simplify_map_eq|]);
    (split;
     [apply elem_of_subseteq; intros k [v Hk]%elem_of_dom;
      rewrite !elem_of_union, !elem_of_singleton;
      destruct (decide (k = "title")) as [->|?]; [tauto|];
      destruct (decide (k = "album_title")) as [->|?]; [tauto|];
      destruct (decide (k = "track_num")) as [->|?]; [tauto|];
      destruct (decide (k = "disc")) as [->|?]; [tauto|];
      by simplify_map_eq|]);
    intros [x Hx]; simplify_map_eq; eauto.
Qed.

Lemma substring_nonempty (n : nat) (x : string) :
  (0 < n)%nat → x ≠ "" → substring 0 n x ≠ "".
Proof. destruct n, x; simpl; try done. lia. Qed.

Lemma stem_nonempty p : name p ≠ "" → stem p ≠ "".
Proof.
  intros Hn. unfold stem.
  destruct ((0 <? rfind "." (name p)) && _) eqn:E; [|done].
  apply andb_true_iff in E as [E _]. apply Z.ltb_lt in E.
  apply substring_nonempty; [lia | done].
Qed.

(** The guessed title is empty only when the stem is. *)
Lemma guess_title p :
  ∃ ti, guess_fields p !! "title" = Some ti ∧ (ti = "" → stem p = "").
Proof.
  destruct (guess_fields_cases p)
    as [(d & t & ti & _ & _ & _ & [Hne _] & ->)
       |[(t & ti & _ & _ & _ & [Hne _] & ->)|(_ & _ & ->)]];
    unfold base_fields; eexists; (split; [by simplify_map_eq|]); done.
Qed.

(** X6. For a path whose last component is not empty the guessed title is
    not empty, whether it is the stem or the title group of a pattern. *)
Theorem guess_title_nonempty p :
  name p ≠ "" →
  ∃ ti, guess_fields p !! "title" = Some ti ∧ ti ≠ "".
Proof.
  intros Hn. destruct (guess_title p) as (ti & L & Hti).
  exists ti. split; [done|]. intros E. by apply (stem_nonempty p Hn), Hti.
Qed.

(** The file ".hidden" keeps its whole name as its title. *)
Lemma guess_title_nonempty_sample :
  ∃ ti, guess_fields (mkPath "/" ["music"; ".hidden"]) !! "title" = Some ti
        ∧ ti ≠ "".
Proof. apply guess_title_nonempty. by vm_compute. Defined.

End Guesser.

(** ** Field Reconciler *)

Section Reconciler.

Implicit Types (g : gmap string string) (t : table) (st : state).
Implicit Types (v null : PyVal) (key k : string).

Lemma has_keys_elem (t : table) (fields : gmap string PyVal) :
  has_keys t fields → ∀ k, k ∈ keys t → is_Some (fields !! k).
Proof. unfold has_keys. by rewrite Forall_forall. Qed.

Lemma for_each_app {A} (l1 l2 : list A) (body : A → M unit) st :
  for_each (l1 ++ l2) body st =
  match for_each l1 body st with
  | (Ret _, st') => for_each l2 body st'
  | (Raise e, st') => (Raise e, st')
  end.
Proof.
  revert st. induction l1 as [|x l1 IH]; intros st; simpl; [done|].
  unfold mbind, M_mbind, M_bind.
  destruct (body x st) as [[[]|e] st1]; [apply IH | done].
Qed.

Lemma for_each_cons {A} (x : A) (l : list A) (body : A → M unit) st :
  for_each (x :: l) body st =
  match body x st with
  | (Ret _, st') => for_each l body st'
  | (Raise e, st') => (Raise e, st')
  end.
Proof.
  simpl. unfold mbind, M_mbind, M_bind.
  by destruct (body x st) as [[[]|e] st1].
Qed.

(** One pass of the track loop, in closed form. *)
Lemma fixup_track_run g key null st :
  fixup_track g (key, null) st =
  match track_fields st !! key with
  | None => (Raise (KeyError key), st)
  | Some v =>
      if truthy v then (Ret tt, st)
      else
        let tf := <[key := null]> (track_fields st) in
        match g !! key with
        | None => (Ret tt, with_track st tf)
        | Some s =>
            if is_int null then
              match py_int s with
              | Ret n => (Ret tt, with_track st (<[key := PInt n]> tf))
              | Raise e => (Raise e, with_track st tf)
              end
            else (Ret tt, with_track st (<[key := PStr s]> tf))
        end
  end.
Proof.
  unfold fixup_track, mbind, M_mbind, M_bind, get_track, set_track, lift,
    mret, M_mret, M_ret, with_track, _GUESS_TAGS.
  destruct (track_fields st !! key) as [v|]; [|done].
  destruct (truthy v); simpl; [done|].
  destruct (g !! key) as [s|]; [|done].
  destruct (is_int null); [|done].
  by destruct (py_int s).
Qed.

(** One pass of the album loop, in closed form. *)
Lemma fixup_album_run g key null st :
  fixup_album g (key, null) st =
  match album_fields st !! key with
  | None => (Raise (KeyError key), st)
  | Some v =>
      if truthy v then (Ret tt, st)
      else
        let af := <[key := null]> (album_fields st) in
        match g !! ("album_" +:+ key) with
        | None => (Ret tt, with_album st af)
        | Some s => (Ret tt, with_album st (<[key := PStr s]> af))
        end
  end.
Proof.
  unfold fixup_album, mbind, M_mbind, M_bind, get_album, set_album,
    mret, M_mret, M_ret, with_album, _GUESS_TAGS.
  destruct (album_fields st !! key) as [v|]; [|done].
  destruct (truthy v); simpl; [done|].
  by destruct (g !! ("album_" +:+ key)).
Qed.

(** What a pass of the track loop cannot touch. *)
Lemma fixup_track_effect g key null st :
  let st' := (fixup_track g (key, null) st).2 in
  album_fields st' = album_fields st
  ∧ _null_track_num_count st' = _null_track_num_count st
  ∧ _last_added_album st' = _last_added_album st
  ∧ (∀ k, is_Some (track_fields st !! k) → is_Some (track_fields st' !! k))
  ∧ ∀ k, (k ≠ key ∨ ∀ v, track_fields st !! k = Some v → ¬ blank v) →
         track_fields st' !! k = track_fields st !! k.
Proof.
  rewrite fixup_track_run. unfold blank.
  destruct (track_fields st !! key) as [v|] eqn:L; [|done].
  destruct (truthy v) eqn:T; [done|].
  assert (∀ k, (k ≠ key ∨ ∀ v, track_fields st !! k = Some v →
                            truthy v ≠ false) → k ≠ key) as Hne.
  { intros k [?|H] ->; [done|]. by apply (H v). }
  assert (∀ k tf, is_Some (track_fields st !! k) →
                  is_Some (<[key := tf]> (track_fields st) !! k)) as Hs.
  { intros k w. rewrite lookup_insert. by case_decide. }
  assert (∀ k tf w, is_Some (track_fields st !! k) →
     is_Some (<[key := w]> (<[key := tf]> (track_fields st)) !! k)) as Hs2.
  { intros k w w' H. destruct (decide (key = k)) as [->|?];
      [by rewrite lookup_insert_eq | by rewrite !lookup_insert_ne]. }
  cbn zeta.
  destruct (g !! key) as [s|]; [destruct (is_int null);
    [destruct (py_int s)|]|]; simpl; split_and!; try done;
    try (intros k Hk; first [by apply Hs | by apply Hs2]);
    intros k Hk; apply Hne in Hk; by rewrite ?lookup_insert_ne.
Qed.

(** The track loop as a whole: it keeps the album fields and the globals,
    drops no key, and leaves alone every field that is not blank and
    every key outside the table. *)
Lemma track_loop_frame g t st :
  let st' := (for_each t (fixup_track g) st).2 in
  album_fields st' = album_fields st
  ∧ _null_track_num_count st' = _null_track_num_count st
  ∧ _last_added_album st' = _last_added_album st
  ∧ (∀ k, is_Some (track_fields st !! k) → is_Some (track_fields st' !! k))
  ∧ ∀ k, (k ∉ keys t ∨ ∀ v, track_fields st !! k = Some v → ¬ blank v) →
         track_fields st' !! k = track_fields st !! k.
Proof.
  revert st. induction t as [|[key null] t IH]; intros st; [done|].
  rewrite for_each_cons.
  pose proof (fixup_track_effect g key null st) as (Ha & Hc & Hl & Hs & Hk).
  destruct (fixup_track g (key, null) st) as [[[]|e] st1]; simpl in *.
  - destruct (IH st1) as (Ha' & Hc' & Hl' & Hs' & Hk').
    split_and!; try congruence; [by eauto|].
    intros k Hcond.
    assert (track_fields st1 !! k = track_fields st !! k) as E.
    { apply Hk. destruct Hcond as [Hn|?]; [left|by right].
      intros ->. apply Hn. unfold keys. simpl. by left. }
    rewrite <- E. apply Hk'. destruct Hcond as [Hn|Hb].
    + left. intros Hin. apply Hn. unfold keys in *. simpl. by right.
    + right. by rewrite E.
  - split_and!; try done. intros k Hcond. apply Hk.
    destruct Hcond as [Hn|?]; [left|by right].
    intros ->. apply Hn. unfold keys. simpl. by left.
Qed.

(** A pass of the track loop on a key that is present ends as [filled]
    says, and when it raises it has left the table's value behind. *)
Lemma fixup_track_filled g key null st v :
  track_fields st !! key = Some v →
  ∃ st',
    fixup_track g (key, null) st =
      (match filled null (g !! key) v with
       | Ret _ => Ret tt
       | Raise e => Raise e
       end, st')
    ∧ track_fields st' !! key =
      Some (match filled null (g !! key) v with
            | Ret w => w
            | Raise _ => null
            end).
Proof.
  intros L. rewrite fixup_track_run, L. unfold filled.
  destruct (truthy v); [by eexists|]. cbn zeta.
  destruct (g !! key) as [s|]; [destruct (is_int null);
    [destruct (py_int s)|]|];
    (eexists; split; [reflexivity|]); simpl; by rewrite ?lookup_insert_eq.
Qed.

(** When every key of the table is present and every fill succeeds, the
    track loop returns and each field holds what [filled] says. *)
Lemma track_loop_ok g t st :
  NoDup (keys t) →
  (∀ k null, (k, null) ∈ t →
     ∃ v w, track_fields st !! k = Some v
            ∧ filled null (g !! k) v = Ret w) →
  ∃ st',
    for_each t (fixup_track g) st = (Ret tt, st')
    ∧ ∀ k null v, (k, null) ∈ t → track_fields st !! k = Some v →
        Ret <$> track_fields st' !! k = Some (filled null (g !! k) v).
Proof.
  revert st. induction t as [|[key null] t IH]; intros st Hnd Hall.
  { exists st. split; [done|]. intros k null v Hin.
    by apply not_elem_of_nil in Hin. }
  apply NoDup_cons in Hnd as [Hnotin Hnd].
  destruct (Hall key null) as (v & w & L & F); [by left|].
  destruct (fixup_track_filled g key null st v L) as (st1 & Hrun & Hval).
  rewrite F in Hrun, Hval.
  pose proof (fixup_track_effect g key null st) as (_ & _ & _ & _ & Hk).
  rewrite Hrun in Hk. simpl in Hk.
  assert (∀ k null', (k, null') ∈ t →
            track_fields st1 !! k = track_fields st !! k) as Hsame.
  { intros k null' Hin. apply Hk. left. intros ->. apply Hnotin.
    unfold keys. apply list_elem_of_fmap. by exists (key, null'). }
  destruct (IH st1 Hnd) as (st' & Hloop & Hvals).
  { intros k null' Hin. rewrite (Hsame _ _ Hin).
    apply Hall. by right. }
  exists st'. rewrite for_each_cons, Hrun. split; [done|].
  intros k null' v' [[= -> ->]|Hin]%elem_of_cons Lk.
  - pose proof (track_loop_frame g t st1) as (_ & _ & _ & _ & Hkeep).
    rewrite Hloop in Hkeep. simpl in Hkeep.
    rewrite (Hkeep key) by (by left). rewrite Hval. simpl.
    congruence.
  - apply (Hvals k null' v' Hin). by rewrite (Hsame _ _ Hin).
Qed.

(** The value one field has after the track loop, whether the loop
    returns or raises behind it: the passes before it must succeed. *)
Lemma track_loop_key g t1 key null t2 st v :
  NoDup (keys (t1 ++ (key, null) :: t2)) →
  (∀ k null', (k, null') ∈ t1 →
     ∃ v' w, track_fields st !! k = Some v'
             ∧ filled null' (g !! k) v' = Ret w) →
  track_fields st !! key = Some v →
  track_fields
    (for_each (t1 ++ (key, null) :: t2) (fixup_track g) st).2 !! key =
  Some (match filled null (g !! key) v with
        | Ret w => w
        | Raise _ => null
        end).
Proof.
  intros Hnd Hall L. unfold keys in Hnd. rewrite fmap_app in Hnd.
  apply NoDup_app in Hnd as (Hnd1 & Hdisj & Hnd2). simpl in Hnd2.
  apply NoDup_cons in Hnd2 as [Hnotin2 _].
  assert (key ∉ keys t1) as Hnotin1.
  { intros Hin. apply (Hdisj _ Hin). simpl. by left. }
  rewrite for_each_app.
  pose proof (track_loop_frame g t1 st) as (_ & _ & _ & _ & Hkeep).
  destruct (track_loop_ok g t1 st Hnd1 Hall) as (st1 & E1 & _).
  rewrite E1 in Hkeep |- *. simpl in Hkeep.
  assert (track_fields st1 !! key = Some v) as L1.
  { rewrite Hkeep; [done | by left]. }
  rewrite for_each_cons.
  destruct (fixup_track_filled g key null st1 v L1) as (st2 & Hrun & Hval).
  rewrite Hrun.
  destruct (filled null (g !! key) v) as [w|e]; [|done].
  pose proof (track_loop_frame g t2 st2) as (_ & _ & _ & _ & Hkeep2).
  rewrite Hkeep2; [done | by left].
Qed.

(** What a pass of the album loop cannot touch. *)
Lemma fixup_album_effect g key null st :
  let st' := (fixup_album g (key, null) st).2 in
  track_fields st' = track_fields st
  ∧ _null_track_num_count st' = _null_track_num_count st
  ∧ _last_added_album st' = _last_added_album st
  ∧ ∀ k, (k ≠ key ∨ ∀ v, album_fields st !! k = Some v → ¬ blank v) →
         album_fields st' !! k = album_fields st !! k.
Proof.
  rewrite fixup_album_run. unfold blank.
  destruct (album_fields st !! key) as [v|] eqn:L; [|done].
  destruct (truthy v) eqn:T; [done|].
  assert (∀ k, (k ≠ key ∨ ∀ v, album_fields st !! k = Some v →
                            truthy v ≠ false) → k ≠ key) as Hne.
  { intros k [?|H] ->; [done|]. by apply (H v). }
  cbn zeta.
  destruct (g !! ("album_" +:+ key)) as [s|]; simpl; split_and!;
    try done; intros k Hk; apply Hne in Hk; by rewrite ?lookup_insert_ne.
Qed.

Lemma album_loop_frame g t st :
  let st' := (for_each t (fixup_album g) st).2 in
  track_fields st' = track_fields st
  ∧ _null_track_num_count st' = _null_track_num_count st
  ∧ _last_added_album st' = _last_added_album st
  ∧ ∀ k, (k ∉ keys t ∨ ∀ v, album_fields st !! k = Some v → ¬ blank v) →
         album_fields st' !! k = album_fields st !! k.
Proof.
  revert st. induction t as [|[key null] t IH]; intros st; [done|].
  rewrite for_each_cons.
  pose proof (fixup_album_effect g key null st) as (Ha & Hc & Hl & Hk).
  destruct (fixup_album g (key, null) st) as [[[]|e] st1]; simpl in *.
  - destruct (IH st1) as (Ha' & Hc' & Hl' & Hk').
    split_and!; try congruence.
    intros k Hcond.
    assert (album_fields st1 !! k = album_fields st !! k) as E.
    { apply Hk. destruct Hcond as [Hn|?]; [left|by right].
      intros ->. apply Hn. unfold keys. simpl. by left. }
    rewrite <- E. apply Hk'. destruct Hcond as [Hn|Hb].
    + left. intros Hin. apply Hn. unfold keys in *. simpl. by right.
    + right. by rewrite E.
  - split_and!; try done. intros k Hcond. apply Hk.
    destruct Hcond as [Hn|?]; [left|by right].
    intros ->. apply Hn. unfold keys. simpl. by left.
Qed.

Lemma fixup_album_filled g key null st v :
  album_fields st !! key = Some v →
  ∃ st',
    fixup_album g (key, null) st = (Ret tt, st')
    ∧ album_fields st' !! key =
      Some (filled_album null (g !! ("album_" +:+ key)) v).
Proof.
  intros L. rewrite fixup_album_run, L. unfold filled_album.
  destruct (truthy v); [by eexists|]. cbn zeta.
  destruct (g !! ("album_" +:+ key)) as [s|];
    (eexists; split; [reflexivity|]); simpl; by rewrite ?lookup_insert_eq.
Qed.

(** With every key of the table present the album loop returns, and each
    field holds what [filled_album] says. *)
Lemma album_loop_ok g t st :
  NoDup (keys t) →
  (∀ k, k ∈ keys t → is_Some (album_fields st !! k)) →
  ∃ st',
    for_each t (fixup_album g) st = (Ret tt, st')
    ∧ ∀ k null v, (k, null) ∈ t → album_fields st !! k = Some v →
        album_fields st' !! k =
        Some (filled_album null (g !! ("album_" +:+ k)) v).
Proof.
  revert st. induction t as [|[key null] t IH]; intros st Hnd Hall.
  { exists st. split; [done|]. intros k null v Hin.
    by apply not_elem_of_nil in Hin. }
  apply NoDup_cons in Hnd as [Hnotin Hnd].
  destruct (Hall key) as (v & L); [unfold keys; simpl; by left|].
  destruct (fixup_album_filled g key null st v L) as (st1 & Hrun & Hval).
  pose proof (fixup_album_effect g key null st) as (_ & _ & _ & Hk).
  rewrite Hrun in Hk. simpl in Hk.
  assert (∀ k, k ∈ keys t →
            album_fields st1 !! k = album_fields st !! k) as Hsame.
  { intros k Hin. apply Hk. left. by intros ->. }
  destruct (IH st1 Hnd) as (st' & Hloop & Hvals).
  { intros k Hin. rewrite (Hsame _ Hin). apply Hall.
    unfold keys in *. simpl. by right. }
  exists st'. rewrite for_each_cons, Hrun. split; [done|].
  intros k null' v' [[= -> ->]|Hin]%elem_of_cons Lk.
  - pose proof (album_loop_frame g t st1) as (_ & _ & _ & Hkeep).
    rewrite Hloop in Hkeep. simpl in Hkeep.
    rewrite (Hkeep key) by (by left). rewrite Hval. congruence.
  - assert (k ∈ keys t) as Hin'.
    { unfold keys. apply list_elem_of_fmap. by exists (k, null'). }
    apply (Hvals k null' v' Hin). by rewrite (Hsame _ Hin').
Qed.

(** [reconcile] is the track loop followed, unless it raised, by the
    album loop, both with the guess for the path. *)
Lemma reconcile_run p st :
  reconcile p st =
  match for_each _NULL_TRACK_FIELDS (fixup_track (guess_fields p)) st with
  | (Ret _, st1) =>
      for_each _NULL_ALBUM_FIELDS (fixup_album (guess_fields p)) st1
  | (Raise e, st1) => (Raise e, st1)
  end.
Proof.
  unfold reconcile, _GUESS_TAGS, mbind, M_mbind, M_bind.
  by destruct (for_each _ _ st) as [[[]|e] st1].
Qed.

Lemma NoDup_track_keys : NoDup (keys _NULL_TRACK_FIELDS).
Proof. apply NoDup_ListNoDup. vm_compute. repeat constructor; simpl; intuition discriminate. Qed.

Lemma NoDup_album_keys : NoDup (keys _NULL_ALBUM_FIELDS).
Proof. apply NoDup_ListNoDup. vm_compute. repeat constructor; simpl; intuition discriminate. Qed.

(** The Reconciler keeps the globals, keeps every key outside the two
    tables, and keeps every field that is not blank. *)
Lemma reconcile_frame p st :
  let st' := (reconcile p st).2 in
  _null_track_num_count st' = _null_track_num_count st
  ∧ _last_added_album st' = _last_added_album st
  ∧ (∀ k, (k ∉ keys _NULL_TRACK_FIELDS
           ∨ ∀ v, track_fields st !! k = Some v → ¬ blank v) →
          track_fields st' !! k = track_fields st !! k)
  ∧ (∀ k, (k ∉ keys _NULL_ALBUM_FIELDS
           ∨ ∀ v, album_fields st !! k = Some v → ¬ blank v) →
          album_fields st' !! k = album_fields st !! k).
Proof.
  rewrite reconcile_run.
  pose proof (track_loop_frame (guess_fields p) _NULL_TRACK_FIELDS st)
    as (Ha & Hc & Hl & _ & Hk).
  destruct (for_each _NULL_TRACK_FIELDS _ st) as [[[]|e] st1];
    cbn [snd] in *.
  - pose proof (album_loop_frame (guess_fields p) _NULL_ALBUM_FIELDS st1)
      as (Ht' & Hc' & Hl' & Hk').
    split_and!; try congruence.
    + intros k Hcond. rewrite Ht'. by apply Hk.
    + intros k Hcond. rewrite <- Ha. apply Hk'. by rewrite Ha.
  - split_and!; try done. intros k _. by rewrite Ha.
Qed.

(** C3. Whatever the path, the Reconciler leaves every track field and
    every album field that is not blank as it was, so tag data is never
    replaced by a guess or by a table value; a field it has changed was a
    blank field of its table. *)
Theorem reconcile_fills_blanks_only p st :
  let st' := (reconcile p st).2 in
  (∀ k v, track_fields st !! k = Some v → ¬ blank v →
          track_fields st' !! k = Some v)
  ∧ (∀ k v, album_fields st !! k = Some v → ¬ blank v →
            album_fields st' !! k = Some v)
  ∧ (∀ k, track_fields st' !! k ≠ track_fields st !! k →
          k ∈ keys _NULL_TRACK_FIELDS
          ∧ ∃ v, track_fields st !! k = Some v ∧ blank v)
  ∧ (∀ k, album_fields st' !! k ≠ album_fields st !! k →
          k ∈ keys _NULL_ALBUM_FIELDS
          ∧ ∃ v, album_fields st !! k = Some v ∧ blank v).
Proof.
  pose proof (reconcile_frame p st) as (_ & _ & Ht & Ha). cbn zeta in *.
  assert (∀ (t : table) (f f' : gmap string PyVal),
    (∀ k, (k ∉ keys t ∨ ∀ v, f !! k = Some v → ¬ blank v) →
          f' !! k = f !! k) →
    ∀ k, f' !! k ≠ f !! k →
         k ∈ keys t ∧ ∃ v, f !! k = Some v ∧ blank v) as Hchanged.
  { intros t f f' Hkeep k Hne.
    destruct (decide (k ∈ keys t)) as [Hin|Hnin].
    2:{ destruct Hne. apply Hkeep. by left. }
    split; [done|].
    destruct (f !! k) as [v|] eqn:L.
    2:{ destruct Hne. rewrite Hkeep; [done|]. right. by rewrite L. }
    exists v. split; [done|]. unfold blank.
    destruct (truthy v) eqn:T; [|done].
    destruct Hne. rewrite Hkeep; [done|]. right. rewrite L.
    intros ? [= <-]. unfold blank. congruence. }
  split_and!.
  - intros k v L Hv. rewrite Ht; [done|]. right. rewrite L. by intros ? [= <-].
  - intros k v L Hv. rewrite Ha; [done|]. right. rewrite L. by intros ? [= <-].
  - by apply Hchanged.
  - by apply Hchanged.
Qed.

(** The title "Real Title" survives a path whose stem would give the
    title "Song". *)
Lemma reconcile_keeps_real_title :
  guess_fields disc_track_path !! "title" = Some "Song"
  ∧ track_fields
      (reconcile disc_track_path
         (fresh titled_track_fields blank_album_fields)).2 !! "title" =
    Some (PStr "Real Title").
Proof.
  split; [by vm_compute|].
  apply (proj1 (reconcile_fills_blanks_only disc_track_path
                  (fresh titled_track_fields blank_album_fields))).
  - by vm_compute.
  - by vm_compute.
Defined.

End Reconciler.

(** ** [int] on a digit run *)

Section IntOfDigits.

Implicit Types (c : ascii) (l : list ascii) (s : string).

Lemma digit_plain c :
  is_digit c = true →
  is_space c = false ∧ Ascii.eqb c "-" = false ∧ Ascii.eqb c "+" = false
  ∧ Ascii.eqb c underscore = false.
Proof.
  destruct c as [[] [] [] [] [] [] [] []]; vm_compute;
    intros; split_and!; congruence.
Qed.

Lemma digit_val_nonneg c : is_digit c = true → 0 ≤ digit_val c.
Proof.
  unfold is_digit, digit_val. intros [H _]%andb_true_iff.
  apply Z.leb_le in H. lia.
Qed.

Lemma decimal_nonneg l : ∀ acc,
  forallb is_digit l = true → 0 ≤ acc → 0 ≤ decimal acc l.
Proof.
  induction l as [|c l IH]; intros acc Hall Hacc; simpl in *; [done|].
  apply andb_true_iff in Hall as [Hc Hl]. apply IH; [done|].
  pose proof (digit_val_nonneg c Hc). lia.
Qed.

Lemma literal_digits_all l : ∀ prev,
  forallb is_digit l = true → l ≠ [] ∨ prev = true →
  literal_digits prev l = Some l.
Proof.
  induction l as [|c l IH]; intros prev Hall Hne; simpl in *.
  - destruct Hne as [?| ->]; done.
  - apply andb_true_iff in Hall as [Hc Hl]. rewrite Hc.
    by rewrite (IH true Hl) by (by right).
Qed.

Lemma lstrip_digit c l : is_digit c = true → lstrip (c :: l) = c :: l.
Proof.
  intros Hc. simpl. by destruct (digit_plain c Hc) as [-> _].
Qed.

Lemma strip_digits l :
  forallb is_digit l = true → l ≠ [] → strip l = l.
Proof.
  intros Hall Hne. unfold strip.
  destruct l as [|c l'] eqn:El; [done|]. rewrite <- El in *.
  assert (lstrip l = l) as ->.
  { rewrite El in *. simpl in Hall. apply andb_true_iff in Hall as [Hc _].
    by apply lstrip_digit. }
  assert (forallb is_digit (rev l) = true) as Hrev.
  { rewrite forallb_forall in *. intros x Hx. apply Hall.
    by apply in_rev. }
  destruct (rev l) as [|d r] eqn:Er.
  - apply (f_equal (@rev ascii)) in Er. rewrite rev_involutive in Er.
    by rewrite Er in Hne.
  - simpl in Hrev. apply andb_true_iff in Hrev as [Hd _].
    rewrite (lstrip_digit d r Hd), <- Er. apply rev_involutive.
Qed.

(** On the text of a digit group [int] gives the decimal value, which is
    not negative, unless the run is longer than the conversion limit. *)
Lemma py_int_digits s :
  text_of CDigit s →
  py_int s =
    (if (int_max_str_digits <? length (chars s))%nat then Raise ValueError
     else Ret (decimal 0 (chars s)))
  ∧ 0 ≤ decimal 0 (chars s).
Proof.
  intros [Hne Hall]. change (forallb is_digit (chars s) = true) in Hall.
  assert (chars s ≠ []) as Hne'.
  { destruct s; [done | discriminate]. }
  split; [|by apply decimal_nonneg].
  unfold py_int. fold (chars s). rewrite (strip_digits _ Hall Hne').
  destruct (chars s) as [|c l] eqn:E; [done|].
  pose proof Hall as Hall'. simpl in Hall'.
  apply andb_true_iff in Hall' as [Hc _].
  destruct (digit_plain c Hc) as (_ & -> & -> & _).
  rewrite (literal_digits_all _ false Hall) by (by left).
  destruct (int_max_str_digits <? length (c :: l))%nat; [done|].
  f_equal. lia.
Qed.

Lemma py_int_digits_nonneg s n :
  text_of CDigit s → py_int s = Ret n → 0 ≤ n.
Proof.
  intros Hs. destruct (py_int_digits s Hs) as [-> Hn].
  destruct (_ <? _)%nat; [discriminate|]. by intros [= <-].
Qed.

End IntOfDigits.

(** ** The read hook *)

Section ReadHook.

Implicit Types (p : Path) (st : state) (v a : PyVal).

Lemma guess_album_title p :
  guess_fields p !! "album_title" = Some (name (parent p)).
Proof.
  destruct (guess_fields_cases p)
    as [(d & t & ti & _ & _ & _ & _ & ->)
       |[(t & ti & _ & _ & _ & _ & ->)|(_ & _ & ->)]];
    unfold base_fields; by simplify_map_eq.
Qed.

Lemma guess_without_track_num p :
  guess_fields p !! "track_num" = None →
  re_match pattern_1 (stem p) = None ∧ re_match pattern_2 (stem p) = None
  ∧ guess_fields p = base_fields p.
Proof.
  destruct (guess_fields_cases p)
    as [(d & t & ti & _ & _ & _ & _ & ->)
       |[(t & ti & _ & _ & _ & _ & ->)|(? & ? & ->)]];
    unfold base_fields; intros Hlk; by simplify_map_eq.
Qed.

Lemma guess_track_num_digits p s :
  guess_fields p !! "track_num" = Some s → text_of CDigit s.
Proof.
  destruct (guess_fields_cases p)
    as [(d & t & ti & _ & _ & ? & _ & ->)
       |[(t & ti & _ & _ & ? & _ & ->)|(? & ? & ->)]];
    unfold base_fields; intros Hlk; by simplify_map_eq.
Qed.

(** The Disambiguator in closed form. *)
Lemma disambiguate_run st :
  disambiguate st =
  match track_fields st !! "track_num" with
  | None => (Raise (KeyError "track_num"), st)
  | Some tn =>
      if py_eq tn (PInt (-1)) then
        match album_fields st !! "title" with
        | None => (Raise (KeyError "title"), st)
        | Some title =>
            if py_eq (_last_added_album st) title then
              let count := _null_track_num_count st + 1 in
              (Ret tt,
               mkState (<["track_num" := PInt (- count)]> (track_fields st))
                 (album_fields st) count (_last_added_album st))
            else
              (Ret tt,
               mkState (<["track_num" := PInt (-1)]> (track_fields st))
                 (album_fields st) 1 title)
        end
      else (Ret tt, st)
  end.
Proof.
  unfold disambiguate, mbind, M_mbind, M_bind, get_track, get_album,
    get_last, get_count, set_count, set_last, set_track, lift, mret, M_mret,
    M_ret.
  destruct (track_fields st !! "track_num") as [tn|]; [|done].
  cbn [table_get _NULL_TRACK_FIELDS String.eqb Ascii.eqb Bool.eqb].
  destruct (py_eq tn (PInt (-1))); [|done].
  destruct (album_fields st !! "title") as [title|] eqn:L; [|done].
  destruct (py_eq (_last_added_album st) title); simpl; [done|].
  by rewrite L.
Qed.

Lemma read_custom_tags_run p st :
  read_custom_tags p st =
  match reconcile p st with
  | (Ret _, st1) => disambiguate st1
  | (Raise e, st1) => (Raise e, st1)
  end.
Proof.
  unfold read_custom_tags, mbind, M_mbind, M_bind.
  by destruct (reconcile p st) as [[[]|e] st1].
Qed.

(** When the album keys are present and every track fill succeeds, the
    Reconciler returns with each field as [filled] and [filled_album] say,
    and with the globals as they were. *)
Lemma reconcile_ok p st :
  has_keys _NULL_ALBUM_FIELDS (album_fields st) →
  (∀ k null, (k, null) ∈ _NULL_TRACK_FIELDS →
     ∃ v w, track_fields st !! k = Some v
            ∧ filled null (guess_fields p !! k) v = Ret w) →
  ∃ st1,
    reconcile p st = (Ret tt, st1)
    ∧ (∀ k null v, (k, null) ∈ _NULL_TRACK_FIELDS →
         track_fields st !! k = Some v →
         Ret <$> track_fields st1 !! k =
         Some (filled null (guess_fields p !! k) v))
    ∧ (∀ k null v, (k, null) ∈ _NULL_ALBUM_FIELDS →
         album_fields st !! k = Some v →
         album_fields st1 !! k =
         Some (filled_album null (guess_fields p !! ("album_" +:+ k)) v))
    ∧ _null_track_num_count st1 = _null_track_num_count st
    ∧ _last_added_album st1 = _last_added_album st.
Proof.
  intros Hak0 Hfill. pose proof (has_keys_elem _ _ Hak0) as Hak.
  rewrite reconcile_run.
  pose proof (track_loop_frame (guess_fields p) _NULL_TRACK_FIELDS st)
    as (Ha & Hc & Hl & _ & _).
  destruct (track_loop_ok (guess_fields p) _NULL_TRACK_FIELDS st
              NoDup_track_keys Hfill) as (sta & Et & Hvt).
  rewrite Et in Ha, Hc, Hl |- *. cbn [snd] in *.
  pose proof (album_loop_frame (guess_fields p) _NULL_ALBUM_FIELDS sta)
    as (Ht' & Hc' & Hl' & _).
  destruct (album_loop_ok (guess_fields p) _NULL_ALBUM_FIELDS sta
              NoDup_album_keys) as (st1 & Ea & Hva).
  { by rewrite Ha. }
  rewrite Ea in Ht', Hc', Hl'. cbn [snd] in *.
  exists st1. split; [done|]. split_and!; try congruence.
  - intros k null v Hin L. rewrite Ht'. by apply Hvt.
  - intros k null v Hin L. apply Hva; [done|]. by rewrite Ha.
Qed.

(** The track number the Reconciler leaves, whether it returns or raises
    on a later field. *)
Lemma reconcile_track_num p st v :
  has_keys _NULL_TRACK_FIELDS (track_fields st) →
  track_fields st !! "track_num" = Some v →
  track_fields (reconcile p st).2 !! "track_num" =
  Some (match filled (PInt (-1)) (guess_fields p !! "track_num") v with
        | Ret w => w
        | Raise _ => PInt (-1)
        end).
Proof.
  intros Hk0 L. pose proof (has_keys_elem _ _ Hk0) as Hk.
  rewrite reconcile_run.
  pose proof (track_loop_key (guess_fields p)
                [("title", PStr "<Unknown Track>")] "track_num" (PInt (-1))
                [("disc", PInt 1)] st v NoDup_track_keys) as Hkey.
  change ([("title", PStr "<Unknown Track>")] ++
          ("track_num", PInt (-1)) :: [("disc", PInt 1)])
    with _NULL_TRACK_FIELDS in Hkey.
  rewrite <- Hkey; [|clear Hkey|done].
  - destruct (for_each _NULL_TRACK_FIELDS _ st) as [[[]|e] sta];
      cbn [snd]; [|done].
    pose proof (album_loop_frame (guess_fields p) _NULL_ALBUM_FIELDS sta)
      as (Ht' & _).
    by rewrite Ht'.
  - intros k null [= -> ->]%list_elem_of_singleton.
    destruct (Hk "title") as [w Lw].
    { unfold keys. simpl. by left. }
    exists w. unfold filled. rewrite Lw. simpl.
    destruct (truthy w); [by eexists|].
    destruct (guess_fields p !! "title"); by eexists.
Qed.

(** Without a guess for the track number no track fill can fail. *)
Lemma fills_without_track_num p st :
  has_keys _NULL_TRACK_FIELDS (track_fields st) →
  guess_fields p !! "track_num" = None →
  ∀ k null, (k, null) ∈ _NULL_TRACK_FIELDS →
    ∃ v w, track_fields st !! k = Some v
           ∧ filled null (guess_fields p !! k) v = Ret w.
Proof.
  intros Hk0 Hg k null Hin. pose proof (has_keys_elem _ _ Hk0) as Hk.
  destruct (Hk k) as [v L].
  { unfold keys. apply list_elem_of_fmap. by exists (k, null). }
  exists v. rewrite L.
  destruct (guess_without_track_num p Hg) as (_ & _ & E).
  unfold _NULL_TRACK_FIELDS in Hin.
  repeat (apply elem_of_cons in Hin as [[= -> ->]|Hin]);
    [| | |by apply not_elem_of_nil in Hin];
    unfold filled; destruct (truthy v); try (by eexists);
    rewrite E; unfold base_fields; simplify_map_eq; by eexists.
Qed.

(** X20. The whole read hook keeps tag data as well, whether it returns
    or raises, but for one case: the Disambiguator takes a track number
    tag of -1 for its own sentinel and renumbers it. *)
Lemma read_custom_tags_keeps_tag_data p st k v :
  track_fields st !! k = Some v → ¬ blank v →
  k ≠ "track_num" ∨ v ≠ PInt (-1) →
  track_fields (read_custom_tags p st).2 !! k = Some v.
Proof.
  intros L Hv Hk.
  pose proof (reconcile_frame p st) as (_ & _ & Ht & _). cbn zeta in Ht.
  assert (track_fields (reconcile p st).2 !! k = Some v) as L1.
  { rewrite Ht; [done|]. right. rewrite L. by intros ? [= <-]. }
  rewrite read_custom_tags_run.
  destruct (reconcile p st) as [[[]|e] st1]; cbn [snd] in *; [|done].
  rewrite disambiguate_run.
  destruct (track_fields st1 !! "track_num") as [tn|] eqn:Ltn; [|done].
  destruct (py_eq tn (PInt (-1))) eqn:E; [|done].
  apply py_eq_eq in E. subst tn.
  assert (k ≠ "track_num") as Hne.
  { intros ->. destruct Hk as [?|Hk]; [done|]. apply Hk. congruence. }
  destruct (album_fields st1 !! "title") as [title|]; [|done].
  destruct (py_eq (_last_added_album st1) title); cbn [snd track_fields];
    by rewrite lookup_insert_ne.
Qed.

(** The title "Real Title" is there after the whole hook. *)
Lemma read_custom_tags_keeps_real_title :
  track_fields
    (read_custom_tags disc_track_path
       (fresh titled_track_fields blank_album_fields)).2 !! "title" =
  Some (PStr "Real Title").
Proof.
  apply read_custom_tags_keeps_tag_data.
  - reflexivity.
  - by vm_compute.
  - left. discriminate.
Defined.

(** X23. A track number that is false as a condition, such as 0, counts as
    absent. When the path gives no track number the Reconciler writes -1
    over it and the hook returns with a negative track number; when the
    path gives a track number that parses to a value other than 0, the
    Reconciler writes that value and the hook leaves it there. *)
Theorem falsy_track_num_is_refilled p st v :
  has_keys _NULL_TRACK_FIELDS (track_fields st) →
  has_keys _NULL_ALBUM_FIELDS (album_fields st) →
  track_fields st !! "track_num" = Some v → blank v →
  0 ≤ _null_track_num_count st →
  (guess_fields p !! "track_num" = None →
   ∃ st1 st2 k,
     reconcile p st = (Ret tt, st1)
     ∧ track_fields st1 !! "track_num" = Some (PInt (-1))
     ∧ read_custom_tags p st = (Ret tt, st2)
     ∧ track_fields st2 !! "track_num" = Some (PInt (- k)) ∧ 0 < k)
  ∧ (∀ s n,
       guess_fields p !! "track_num" = Some s → py_int s = Ret n → n ≠ 0 →
       track_fields (reconcile p st).2 !! "track_num" = Some (PInt n)
       ∧ track_fields (read_custom_tags p st).2 !! "track_num" =
         Some (PInt n)).
Proof.
  intros Htk Hak L Hv Hcount. unfold blank in Hv. split.
  - intros Hg.
    destruct (reconcile_ok p st Hak (fills_without_track_num p st Htk Hg))
      as (st1 & Er & Hvt & Hva & Hc & Hl).
    assert (track_fields st1 !! "track_num" = Some (PInt (-1))) as L1.
    { assert (Ret <$> track_fields st1 !! "track_num" =
              Some (filled (PInt (-1)) (guess_fields p !! "track_num") v))
        as E.
      { apply Hvt; [|done]. unfold _NULL_TRACK_FIELDS.
        apply elem_of_cons. right. apply elem_of_cons. by left. }
      unfold filled in E. rewrite Hv, Hg in E.
      destruct (track_fields st1 !! "track_num") as [w|]; simpl in E;
        [|discriminate].
      by injection E as ->. }
    destruct (has_keys_elem _ _ Hak "title") as [a La].
    { unfold keys. simpl. by left. }
    assert (is_Some (album_fields st1 !! "title")) as [a1 La1].
    { eexists. apply (Hva "title" (PStr "Unknown Album") a); [|done].
      unfold _NULL_ALBUM_FIELDS. apply elem_of_cons. by left. }
    rewrite read_custom_tags_run, Er, disambiguate_run, L1, La1.
    cbn [py_eq Z.eqb Pos.eqb Z.opp]. 
    destruct (py_eq (_last_added_album st1) a1).
    + eexists st1, _, _. split_and!; try done.
      * cbn [track_fields]. by rewrite lookup_insert_eq.
      * lia.
    + eexists st1, _, 1. split_and!; try done.
      cbn [track_fields]. by rewrite lookup_insert_eq.
  - intros s n Hg Hn Hn0.
    pose proof (reconcile_track_num p st v Htk L) as Hr.
    unfold filled in Hr. rewrite Hv, Hg in Hr. simpl in Hr.
    rewrite Hn in Hr. split; [done|].
    rewrite read_custom_tags_run.
    destruct (reconcile p st) as [[[]|e] st1]; cbn [snd] in *; [|done].
    rewrite disambiguate_run, Hr.
    pose proof (py_int_digits_nonneg s n (guess_track_num_digits p s Hg) Hn).
    assert (py_eq (PInt n) (PInt (-1)) = false) as ->.
    { apply py_eq_neq. intros [= ->]. lia. }
    done.
Qed.

(** An untagged file whose name has no track number, and a file with a
    track number other than 0 in its name: in both the 0 is replaced. *)
Lemma falsy_track_num_refilled_on_samples :
  (∃ st1 st2 k,
     reconcile plain_path (fresh zero_track_fields blank_album_fields) =
       (Ret tt, st1)
     ∧ track_fields st1 !! "track_num" = Some (PInt (-1))
     ∧ read_custom_tags plain_path
         (fresh zero_track_fields blank_album_fields) = (Ret tt, st2)
     ∧ track_fields st2 !! "track_num" = Some (PInt (- k)) ∧ 0 < k)
  ∧ track_fields
      (read_custom_tags disc_track_path
         (fresh zero_track_fields blank_album_fields)).2 !! "track_num" =
    Some (PInt 2).
Proof.
  assert (has_keys _NULL_TRACK_FIELDS zero_track_fields) as Ht.
  { repeat constructor; vm_compute; eauto. }
  assert (has_keys _NULL_ALBUM_FIELDS blank_album_fields) as Ha.
  { repeat constructor; vm_compute; eauto. }
  split.
  - apply (proj1 (falsy_track_num_is_refilled plain_path
                    (fresh zero_track_fields blank_album_fields) (PInt 0)
                    Ht Ha eq_refl eq_refl (Z.le_refl 0))).
    by vm_compute.
  - apply (proj2 (falsy_track_num_is_refilled disc_track_path
                    (fresh zero_track_fields blank_album_fields) (PInt 0)
                    Ht Ha eq_refl eq_refl (Z.le_refl 0)) "02" 2).
    + by vm_compute.
    + by vm_compute.
    + lia.
Defined.

(** C10. The code breaks the claim. At the path
    "/music/My Album/00 Intro.flac" the stem gives the track number "00";
    the hook takes the tag 0 for a blank, writes the sentinel and then
    writes the guess, parsed to 0, over it: it returns with the track
    number 0, so a track number of 0 has survived the read hook. *)
Lemma zero_track_num_survives :
  let st := fresh zero_track_fields blank_album_fields in
  let r := read_custom_tags zero_track_path st in
  track_fields st !! "track_num" = Some (PInt 0)
  ∧ r.1 = Ret tt
  ∧ track_fields r.2 !! "track_num" = Some (PInt 0)
  ∧ ¬ zero_never_survives.
Proof.
  assert (has_keys _NULL_TRACK_FIELDS zero_track_fields) as Ht.
  { repeat constructor; vm_compute; eauto. }
  assert (has_keys _NULL_ALBUM_FIELDS blank_album_fields) as Ha.
  { repeat constructor; vm_compute; eauto. }
  assert (track_fields
            (read_custom_tags zero_track_path
               (fresh zero_track_fields blank_album_fields)).2
            !! "track_num" = Some (PInt 0)) as Hzero.
  { by vm_compute. }
  cbn zeta. split; [by vm_compute|]. split; [by vm_compute|].
  split; [exact Hzero|].
  intros H.
  apply (H zero_track_path (fresh zero_track_fields blank_album_fields)
           Ht Ha); [by vm_compute | exact Hzero].
Qed.

(** C2 fails on the code. At "/music/My Album/00 Intro.flac" with every tag
    blank the guess for the track number is "00"; the hook returns and
    leaves the track number 0, which is blank. At "/Song.flac" the parent
    directory has no name, and the hook leaves the album title empty. *)
Theorem guessed_zero_stays_blank :
  let r := read_custom_tags zero_track_path
             (fresh blank_track_fields blank_album_fields) in
  let r' := read_custom_tags root_path
              (fresh blank_track_fields blank_album_fields) in
  guess_fields zero_track_path !! "track_num" = Some "00"
  ∧ r.1 = Ret tt
  ∧ track_fields r.2 !! "track_num" = Some (PInt 0)
  ∧ blank (PInt 0)
  ∧ guess_fields root_path !! "album_title" = Some ""
  ∧ r'.1 = Ret tt
  ∧ album_fields r'.2 !! "title" = Some (PStr "")
  ∧ blank (PStr "").
Proof. cbn zeta. split_and!; by vm_compute. Qed.

End ReadHook.


(** ** Track-Number Disambiguator *)

Section Disambiguator.

Implicit Types (a last : PyVal) (c : call) (calls : list call) (count : Z).

(** One call for a track without number of album [a]: the hook returns,
    the album is remembered, and the counter restarts at 1 unless [a] was
    the album remembered before. *)
Lemma invoke_sentinel a c count last :
  sentinel_call a c →
  let count' := (if py_eq last a then count else 0) + 1 in
  ∃ st',
    invoke count last c = (Ret tt, st')
    ∧ track_fields st' !! "track_num" = Some (PInt (- count'))
    ∧ _null_track_num_count st' = count'
    ∧ _last_added_album st' = a.
Proof.
  intros (Htk & Hak & (v & Lv & Hv) & Hg & (w & Lw & Hw)).
  unfold invoke.
  set (st := mkState (call_track c) (call_album c) count last).
  unfold blank in *.
  destruct (reconcile_ok (call_path c) st Hak
              (fills_without_track_num (call_path c) st Htk Hg))
    as (st1 & Er & Hvt & Hva & Hc & Hl).
  assert (track_fields st1 !! "track_num" = Some (PInt (-1))) as L1.
  { assert (Ret <$> track_fields st1 !! "track_num" =
            Some (filled (PInt (-1))
                    (guess_fields (call_path c) !! "track_num") v)) as E.
    { apply Hvt; [|done]. unfold _NULL_TRACK_FIELDS.
      apply elem_of_cons. right. apply elem_of_cons. by left. }
    unfold filled in E. rewrite Hv, Hg in E.
    destruct (track_fields st1 !! "track_num") as [x|]; simpl in E;
      [|discriminate].
    by injection E as ->. }
  assert (album_fields st1 !! "title" = Some a) as La.
  { rewrite (Hva "title" (PStr "Unknown Album") w); [| |done].
    2:{ unfold _NULL_ALBUM_FIELDS. apply elem_of_cons. by left. }
    change ("album_" +:+ "title") with "album_title".
    rewrite guess_album_title. unfold filled_album.
    destruct Hw as [[Hb ->]|[Hb ->]].
    - by destruct (truthy w).
    - by rewrite Hb. }
  rewrite read_custom_tags_run, Er, disambiguate_run, L1, La, Hl, Hc.
  cbn [py_eq Z.eqb Pos.eqb Z.opp _last_added_album _null_track_num_count st].
  cbn zeta.
  destruct (py_eq last a) eqn:E; eexists; (split; [reflexivity|]);
    cbn [track_fields _null_track_num_count _last_added_album];
    rewrite lookup_insert_eq; split_and!; try done.
  by apply py_eq_eq.
Qed.

(** Calls for tracks without number of one album, one after the other:
    each returns, and the [i]-th of them ends with the counter one above
    where the [i]-th started. *)
Lemma ingest_same_album a calls :
  Forall (sentinel_call a) calls →
  ∀ count last,
    let start := if py_eq last a then count else 0 in
    length (ingest count last calls) = length calls
    ∧ ∀ i r, ingest count last calls !! i = Some r →
        r.1 = Ret tt
        ∧ track_fields r.2 !! "track_num" =
          Some (PInt (- (start + Z.of_nat i + 1)))
        ∧ _null_track_num_count r.2 = start + Z.of_nat i + 1
        ∧ _last_added_album r.2 = a.
Proof.
  induction 1 as [|c calls Hc Hcalls IH]; intros count last start.
  { split; [done|]. intros i r. cbn [ingest]. by rewrite lookup_nil. }
  cbn [ingest].
  destruct (invoke_sentinel a c count last Hc) as (st' & Ei & Ltn & Ecnt & El).
  fold start in Ltn, Ecnt. rewrite Ei. cbn [snd]. rewrite Ecnt, El.
  destruct (IH (start + 1) a) as [Hlen Hres].
  rewrite py_eq_refl in Hres.
  split; [simpl; by rewrite Hlen|].
  intros [|i] r.
  - intros [= <-]. cbn [fst snd]. split_and!; try done.
    + rewrite Ltn. do 2 f_equal. lia.
    + lia.
  - intros Hr. cbn [lookup list_lookup] in Hr.
    destruct (Hres i r Hr) as (? & Lr & Ec & ?).
    split_and!; try done.
    + rewrite Lr. do 2 f_equal. lia.
    + lia.
Qed.

(** C1. Serial calls of the read hook for [N] tracks of one album [a], each
    with a blank track number that the path does not fill, starting when
    the album remembered is another one (or when the module is fresh): every
    call returns and the [i]-th track (from 0) gets the number [-(i+1)], so
    the numbers are -1, ..., -N in order, negative and distinct. Whatever
    the counter is, a call for such a track of an album other than the one
    remembered gets -1, and the counter restarts at 1 for that album. *)
Theorem sentinel_tracks_numbered a calls count last :
  Forall (sentinel_call a) calls →
  last ≠ a ∨ count = 0 →
  let results := ingest count last calls in
  length results = length calls
  ∧ (∀ i r, results !! i = Some r →
       r.1 = Ret tt
       ∧ track_fields r.2 !! "track_num" = Some (PInt (- (Z.of_nat i + 1)))
       ∧ _null_track_num_count r.2 = Z.of_nat i + 1
       ∧ _last_added_album r.2 = a)
  ∧ (∀ i j r r', results !! i = Some r → results !! j = Some r' →
       track_fields r.2 !! "track_num" = track_fields r'.2 !! "track_num" →
       i = j)
  ∧ (∀ c count' last',
       sentinel_call a c → last' ≠ a →
       ∃ st',
         invoke count' last' c = (Ret tt, st')
         ∧ track_fields st' !! "track_num" = Some (PInt (-1))
         ∧ _null_track_num_count st' = 1
         ∧ _last_added_album st' = a).
Proof.
  intros Hcalls Hstart results.
  destruct (ingest_same_album a calls Hcalls count last) as [Hlen Hres].
  assert ((if py_eq last a then count else 0) = 0) as E0.
  { destruct (py_eq last a) eqn:E; [|done].
    apply py_eq_eq in E. by destruct Hstart. }
  rewrite E0 in Hres.
  assert (∀ i r, results !! i = Some r →
       r.1 = Ret tt
       ∧ track_fields r.2 !! "track_num" = Some (PInt (- (Z.of_nat i + 1)))
       ∧ _null_track_num_count r.2 = Z.of_nat i + 1
       ∧ _last_added_album r.2 = a) as Hres'.
  { intros i r Hr. destruct (Hres i r Hr) as (? & L & Ec & ?).
    split_and!; try done; by rewrite L. }
  split; [done|]. split; [done|]. split.
  - intros i j r r' Hi Hj.
    destruct (Hres' i r Hi) as (_ & -> & _).
    destruct (Hres' j r' Hj) as (_ & -> & _).
    intros [= E]. lia.
  - intros c count' last' Hc Hne.
    destruct (invoke_sentinel a c count' last' Hc) as (st' & Ei & L & Ec & El).
    assert (py_eq last' a = false) as E by (by apply py_eq_neq).
    rewrite E in L, Ec. by exists st'.
Qed.

(** Three untagged files of "My Album", ingested by a fresh module, get
    the track numbers -1, -2 and -3. *)
Lemma my_album_tracks_numbered :
  Forall (sentinel_call (PStr "My Album")) my_album_calls
  ∧ map (fun r => (r.1, track_fields r.2 !! "track_num"))
      (ingest 0 (PStr "") my_album_calls) =
    [(Ret tt, Some (PInt (-1))); (Ret tt, Some (PInt (-2)));
     (Ret tt, Some (PInt (-3)))].
Proof.
  assert (Forall (sentinel_call (PStr "My Album")) my_album_calls) as Hcalls.
  { repeat constructor; try (vm_compute; eauto; fail);
      (eexists; split; [by vm_compute|]); right; by vm_compute. }
  split; [exact Hcalls|].
  destruct (sentinel_tracks_numbered (PStr "My Album") my_album_calls 0
              (PStr "") Hcalls (or_intror eq_refl)) as (Hlen & Hres & _).
  destruct (ingest 0 (PStr "") my_album_calls) as [|r0 [|r1 [|r2 [|]]]];
    try discriminate Hlen.
  destruct (Hres 0%nat r0 eq_refl) as (E0 & L0 & _).
  destruct (Hres 1%nat r1 eq_refl) as (E1 & L1 & _).
  destruct (Hres 2%nat r2 eq_refl) as (E2 & L2 & _).
  simpl. rewrite E0, E1, E2, L0, L1, L2. reflexivity.
Defined.

End Disambiguator.

(** ** When the read hook returns, and with what *)

Section ReadHookTotal.

Implicit Types (p : Path) (st : state) (v a : PyVal) (g : gmap string string).

Lemma chars_length (x : string) : length (chars x) = String.length x.
Proof. induction x as [|c x IH]; simpl; [done | by rewrite IH]. Qed.

(** A guessed number is a digit run no longer than the stem. *)
Lemma guess_number_bounded p k s :
  k = "track_num" ∨ k = "disc" →
  guess_fields p !! k = Some s →
  text_of CDigit s ∧ (String.length s ≤ String.length (stem p))%nat.
Proof.
  intros Hk. rewrite guess_fields_unfold. unfold _PATTERNS.
  rewrite <- !chars_length.
  destruct (re_match pattern_1 (stem p)) as [gd|] eqn:M1.
  - rewrite (guess_loop_first _ _ _ _ _ M1).
    destruct (pattern_1_sound _ _ M1)
      as (disc & sep & num & ws & title & rest
          & E & Hd & _ & Hn & _ & _ & _ & ->).
    apply (f_equal (@length ascii)) in E. rewrite !length_app in E.
    unfold base_fields. simpl.
    destruct Hk as [-> | ->]; intros Hs; simplify_map_eq;
      (split; [by apply run_of_text|]); unfold chars in *;
      rewrite list_ascii_of_string_of_list_ascii; lia.
  - rewrite (guess_loop_skip _ _ _ _ M1).
    destruct (re_match pattern_2 (stem p)) as [gd|] eqn:M2.
    + rewrite (guess_loop_first _ _ _ _ _ M2).
      destruct (pattern_2_sound _ _ M2)
        as (num & ws & title & rest & E & Hn & _ & _ & _ & ->).
      apply (f_equal (@length ascii)) in E. rewrite !length_app in E.
      unfold base_fields. simpl.
      destruct Hk as [-> | ->]; intros Hs; simplify_map_eq.
      split; [by apply run_of_text|]. unfold chars in *.
      rewrite list_ascii_of_string_of_list_ascii. lia.
    + rewrite (guess_loop_skip _ _ _ _ M2). unfold base_fields. simpl.
      destruct Hk as [-> | ->]; intros Hs; simplify_map_eq.
Qed.

(** Within the conversion limit the cast of a guessed number succeeds. *)
Lemma guess_number_parses p k s :
  (String.length (stem p) ≤ int_max_str_digits)%nat →
  k = "track_num" ∨ k = "disc" →
  guess_fields p !! k = Some s →
  ∃ n, py_int s = Ret n ∧ 0 ≤ n.
Proof.
  intros Hlen Hk Hs.
  destruct (guess_number_bounded p k s Hk Hs) as [Ht Hb].
  destruct (py_int_digits s Ht) as [E Hn]. rewrite chars_length in E.
  exists (decimal 0 (chars s)). split; [|done]. rewrite E.
  destruct (int_max_str_digits <? String.length s)%nat eqn:L; [|done].
  apply Nat.ltb_lt in L. lia.
Qed.

(** With the track keys present and the stem within the limit every track
    fill succeeds. *)
Lemma fills_within_limit p st :
  has_keys _NULL_TRACK_FIELDS (track_fields st) →
  (String.length (stem p) ≤ int_max_str_digits)%nat →
  ∀ k null, (k, null) ∈ _NULL_TRACK_FIELDS →
    ∃ v w, track_fields st !! k = Some v
           ∧ filled null (guess_fields p !! k) v = Ret w.
Proof.
  intros Hk0 Hlen k null Hin. pose proof (has_keys_elem _ _ Hk0) as Hk.
  destruct (Hk k) as [v L].
  { unfold keys. apply list_elem_of_fmap. by exists (k, null). }
  exists v. rewrite L. unfold _NULL_TRACK_FIELDS in Hin.
  repeat (apply elem_of_cons in Hin as [[= -> ->]|Hin]);
    [| | |by apply not_elem_of_nil in Hin];
    unfold filled; destruct (truthy v); try (by eexists);
    destruct (guess_fields p !! _) as [s|] eqn:G; try (by eexists); simpl.
  - destruct (guess_number_parses p "track_num" s Hlen (or_introl eq_refl) G)
      as (n & -> & _). by eexists.
  - destruct (guess_number_parses p "disc" s Hlen (or_intror eq_refl) G)
      as (n & -> & _). by eexists.
Qed.

(** The Disambiguator on a state that has a track number and an album
    title: it returns, touches no album field and no other track field,
    and leaves everything alone unless the track number is -1. *)
Lemma disambiguate_effect st tn a :
  track_fields st !! "track_num" = Some tn →
  album_fields st !! "title" = Some a →
  ∃ st',
    disambiguate st = (Ret tt, st')
    ∧ album_fields st' = album_fields st
    ∧ (∀ k, k ≠ "track_num" → track_fields st' !! k = track_fields st !! k)
    ∧ (tn ≠ PInt (-1) → st' = st)
    ∧ (tn = PInt (-1) →
       track_fields st' !! "track_num" =
         Some (PInt (- _null_track_num_count st'))
       ∧ _null_track_num_count st' =
         (if py_eq (_last_added_album st) a
          then _null_track_num_count st + 1 else 1)
       ∧ _last_added_album st' = a).
Proof.
  intros Ltn La. rewrite disambiguate_run, Ltn, La.
  destruct (py_eq tn (PInt (-1))) eqn:E.
  - apply py_eq_eq in E. subst tn.
    destruct (py_eq (_last_added_album st) a) eqn:El;
      eexists; (split; [reflexivity|]); cbn [album_fields track_fields
        _null_track_num_count _last_added_album];
      split_and!; try done;
      try (intros k Hk; by rewrite lookup_insert_ne);
      intros _; rewrite lookup_insert_eq; split_and!; try done.
    by apply py_eq_eq.
  - apply py_eq_neq in E. exists st. split_and!; try done.
Qed.

(** With all keys of the two tables present and a stem within the
    conversion limit the read hook returns; the Reconciler leaves each
    field as [filled] and [filled_album] say, and the Disambiguator then
    changes at most the track number. *)
Lemma read_custom_tags_returns p st :
  has_keys _NULL_TRACK_FIELDS (track_fields st) →
  has_keys _NULL_ALBUM_FIELDS (album_fields st) →
  (String.length (stem p) ≤ int_max_str_digits)%nat →
  ∃ st1 st' tn a,
    reconcile p st = (Ret tt, st1)
    ∧ read_custom_tags p st = (Ret tt, st')
    ∧ (∀ k null v, (k, null) ∈ _NULL_TRACK_FIELDS →
         track_fields st !! k = Some v →
         Ret <$> track_fields st1 !! k =
         Some (filled null (guess_fields p !! k) v))
    ∧ (∀ k null v, (k, null) ∈ _NULL_ALBUM_FIELDS →
         album_fields st !! k = Some v →
         album_fields st1 !! k =
         Some (filled_album null (guess_fields p !! ("album_" +:+ k)) v))
    ∧ _null_track_num_count st1 = _null_track_num_count st
    ∧ _last_added_album st1 = _last_added_album st
    ∧ track_fields st1 !! "track_num" = Some tn
    ∧ album_fields st1 !! "title" = Some a
    ∧ album_fields st' = album_fields st1
    ∧ (∀ k, k ≠ "track_num" →
            track_fields st' !! k = track_fields st1 !! k)
    ∧ (tn ≠ PInt (-1) → st' = st1)
    ∧ (tn = PInt (-1) →
       track_fields st' !! "track_num" =
         Some (PInt (- _null_track_num_count st'))
       ∧ _null_track_num_count st' =
         (if py_eq (_last_added_album st) a
          then _null_track_num_count st + 1 else 1)
       ∧ _last_added_album st' = a).
Proof.
  intros Htk Hak Hlen.
  destruct (reconcile_ok p st Hak (fills_within_limit p st Htk Hlen))
    as (st1 & Er & Hvt & Hva & Hc & Hl).
  destruct (has_keys_elem _ _ Htk "track_num") as [v Lv].
  { unfold keys. simpl. right. by left. }
  destruct (has_keys_elem _ _ Hak "title") as [w Lw].
  { unfold keys. simpl. by left. }
  assert (is_Some (track_fields st1 !! "track_num")) as [tn Ltn].
  { assert (Ret <$> track_fields st1 !! "track_num" =
            Some (filled (PInt (-1)) (guess_fields p !! "track_num") v))
      as E.
    { apply Hvt; [|done]. unfold _NULL_TRACK_FIELDS.
      apply elem_of_cons. right. apply elem_of_cons. by left. }
    destruct (track_fields st1 !! "track_num"); [by eexists | done]. }
  assert (is_Some (album_fields st1 !! "title")) as [a La].
  { eexists. apply (Hva "title" (PStr "Unknown Album") w); [|done].
    unfold _NULL_ALBUM_FIELDS. apply elem_of_cons. by left. }
  destruct (disambiguate_effect st1 tn a Ltn La)
    as (st' & Ed & Ha' & Hk' & Hsame & Hneg).
  exists st1, st', tn, a.
  rewrite read_custom_tags_run, Er, Ed, <- Hc, <- Hl.
  split_and!; done.
Qed.

(** A track loop that returns has found every key of its table. *)
Lemma track_loop_returns_keys g (t : table) : ∀ st st',
  for_each t (fixup_track g) st = (Ret tt, st') →
  ∀ k, k ∈ keys t → is_Some (track_fields st !! k).
Proof.
  induction t as [|[key null] t IH]; intros st st' Hrun k Hin.
  { by apply not_elem_of_nil in Hin. }
  rewrite for_each_cons in Hrun.
  pose proof (fixup_track_effect g key null st) as (_ & _ & _ & _ & Hk).
  pose proof (fixup_track_run g key null st) as Hstep.
  destruct (track_fields st !! key) as [v|] eqn:L.
  2:{ rewrite Hstep in Hrun. discriminate Hrun. }
  destruct (fixup_track g (key, null) st) as [[[]|e] st1];
    [|discriminate Hrun].
  cbn [snd] in Hk. unfold keys in Hin. simpl in Hin.
  apply elem_of_cons in Hin as [->|Hin]; [by rewrite L|].
  destruct (decide (k = key)) as [->|Hne]; [by rewrite L|].
  rewrite <- (Hk k) by (by left). by apply (IH st1 st').
Qed.

Lemma album_loop_returns_keys g (t : table) : ∀ st st',
  for_each t (fixup_album g) st = (Ret tt, st') →
  ∀ k, k ∈ keys t → is_Some (album_fields st !! k).
Proof.
  induction t as [|[key null] t IH]; intros st st' Hrun k Hin.
  { by apply not_elem_of_nil in Hin. }
  rewrite for_each_cons in Hrun.
  pose proof (fixup_album_effect g key null st) as (_ & _ & _ & Hk).
  pose proof (fixup_album_run g key null st) as Hstep.
  destruct (album_fields st !! key) as [v|] eqn:L.
  2:{ rewrite Hstep in Hrun. discriminate Hrun. }
  destruct (fixup_album g (key, null) st) as [[[]|e] st1];
    [|discriminate Hrun].
  cbn [snd] in Hk. unfold keys in Hin. simpl in Hin.
  apply elem_of_cons in Hin as [->|Hin]; [by rewrite L|].
  destruct (decide (k = key)) as [->|Hne]; [by rewrite L|].
  rewrite <- (Hk k) by (by left). by apply (IH st1 st').
Qed.

(** A read hook that returns has found every key of both tables. *)
Lemma read_custom_tags_needs_keys p st st' :
  read_custom_tags p st = (Ret tt, st') →
  has_keys _NULL_TRACK_FIELDS (track_fields st)
  ∧ has_keys _NULL_ALBUM_FIELDS (album_fields st).
Proof.
  rewrite read_custom_tags_run, reconcile_run. intros Hrun.
  pose proof (track_loop_frame (guess_fields p) _NULL_TRACK_FIELDS st)
    as (Ha & _).
  destruct (for_each _NULL_TRACK_FIELDS _ st) as [[[]|e] sta] eqn:Et;
    [|discriminate Hrun].
  destruct (for_each _NULL_ALBUM_FIELDS _ sta) as [[[]|e] st1] eqn:Ea;
    [|discriminate Hrun].
  cbn [snd] in Ha. unfold has_keys. rewrite !Forall_forall. split.
  - by apply (track_loop_returns_keys _ _ _ _ Et).
  - rewrite <- Ha. by apply (album_loop_returns_keys _ _ _ _ Ea).
Qed.

(** X7. For a stem of at most 4300 characters the read hook returns
    exactly when the track fields have the keys "title", "track_num" and
    "disc" and the album fields have the keys "title", "artist", "date" and
    "disc_total"; otherwise it raises. *)
Theorem read_hook_returns_iff_keys p st :
  (String.length (stem p) ≤ int_max_str_digits)%nat →
  (∃ st', read_custom_tags p st = (Ret tt, st'))
  ↔ has_keys _NULL_TRACK_FIELDS (track_fields st)
    ∧ has_keys _NULL_ALBUM_FIELDS (album_fields st).
Proof.
  intros Hlen. split.
  - intros [st' Hrun]. by apply (read_custom_tags_needs_keys p st st').
  - intros [Htk Hak].
    destruct (read_custom_tags_returns p st Htk Hak Hlen)
      as (_ & st' & _ & _ & _ & Hrun & _).
    by exists st'.
Qed.

(** On the untagged "Song.flac" the hook returns, and the dicts have all
    their keys. *)
Lemma read_hook_returns_on_sample :
  (∃ st', read_custom_tags plain_path
            (fresh blank_track_fields blank_album_fields) = (Ret tt, st'))
  ↔ has_keys _NULL_TRACK_FIELDS blank_track_fields
    ∧ has_keys _NULL_ALBUM_FIELDS blank_album_fields.
Proof.
  apply (read_hook_returns_iff_keys plain_path
           (fresh blank_track_fields blank_album_fields)).
  vm_compute. lia.
Defined.

(** X8. Track fields without the key "title" make the read hook raise
    KeyError for that key before it has written anything: both dicts and
    the globals are as they were. *)
Theorem read_hook_missing_title p st :
  track_fields st !! "title" = None →
  read_custom_tags p st = (Raise (KeyError "title"), st).
Proof.
  intros L. rewrite read_custom_tags_run, reconcile_run.
  unfold _NULL_TRACK_FIELDS at 1. rewrite for_each_cons.
  by rewrite fixup_track_run, L.
Qed.

(** Track fields that hold only a track number. *)
Lemma read_hook_missing_title_sample :
  read_custom_tags plain_path
    (fresh (<["track_num" := PInt 3]> ∅) blank_album_fields) =
  (Raise (KeyError "title"),
   fresh (<["track_num" := PInt 3]> ∅) blank_album_fields).
Proof. apply read_hook_missing_title. reflexivity. Defined.

Lemma guess_album_only p k :
  k = "artist" ∨ k = "date" ∨ k = "disc_total" →
  guess_fields p !! ("album_" +:+ k) = None.
Proof.
  intros Hk.
  destruct (guess_fields_cases p)
    as [(d & t & ti & _ & _ & _ & _ & ->)
       |[(t & ti & _ & _ & _ & _ & ->)|(_ & _ & ->)]];
    unfold base_fields; destruct Hk as [->|[->| ->]]; by vm_compute.
Qed.

Lemma blank_str (x : string) : blank (PStr x) ↔ x = "".
Proof.
  unfold blank. simpl. rewrite negb_false_iff. apply String.eqb_eq.
Qed.

Lemma blank_int (n : Z) : blank (PInt n) ↔ n = 0.
Proof.
  unfold blank. simpl. rewrite negb_false_iff. apply Z.eqb_eq.
Qed.

Lemma fmap_ret_inv (o : option PyVal) (x : outcome PyVal) :
  Ret <$> o = Some x → ∃ w, o = Some w ∧ x = Ret w.
Proof. destruct o as [w|]; simpl; [|done]. intros [= <-]. by exists w. Qed.

(** A track fill that ends blank took a blank guess, or there was no guess
    and the table's value is blank. *)
Lemma filled_blank null (guess : option string) v w :
  filled null guess v = Ret w → blank w →
  (guess = None ∧ blank null)
  ∨ ∃ s, guess = Some s
         ∧ ((is_int null = true ∧ py_int s = Ret 0)
            ∨ (is_int null = false ∧ s = "")).
Proof.
  unfold filled. destruct (truthy v) eqn:T.
  { intros [= <-]. unfold blank. congruence. }
  destruct guess as [s|]; [|intros [= <-]; by left].
  right. exists s. split; [done|].
  destruct (is_int null).
  - left. split; [done|]. destruct (py_int s) as [n|]; [|done].
    injection H as <-. by apply blank_int in H0 as ->.
  - right. split; [done|]. injection H as <-. by apply blank_str.
Qed.

Lemma filled_album_blank null (guess : option string) v :
  blank (filled_album null guess v) →
  (guess = None ∧ blank null) ∨ guess = Some "".
Proof.
  unfold filled_album. destruct (truthy v) eqn:T.
  { unfold blank. congruence. }
  destruct guess as [s|]; [|by left].
  intros ->%blank_str. by right.
Qed.

(** X9. With all keys present, a stem within the conversion limit and a
    counter that is not negative, the read hook returns with every policy
    field present, and a field can be blank only through a blank guess: the
    album title when the parent directory has no name, the track title when
    the stem is empty, the track number or the disc when the digits of the
    stem parse to 0. Artist, date and disc total are never blank. *)
Theorem blank_only_from_blank_guess p st :
  has_keys _NULL_TRACK_FIELDS (track_fields st) →
  has_keys _NULL_ALBUM_FIELDS (album_fields st) →
  (String.length (stem p) ≤ int_max_str_digits)%nat →
  0 ≤ _null_track_num_count st →
  ∃ st',
    read_custom_tags p st = (Ret tt, st')
    ∧ (∀ k, k = "artist" ∨ k = "date" ∨ k = "disc_total" →
         ∃ v, album_fields st' !! k = Some v ∧ ¬ blank v)
    ∧ (∃ v, album_fields st' !! "title" = Some v
            ∧ (blank v → name (parent p) = ""))
    ∧ (∃ v, track_fields st' !! "title" = Some v
            ∧ (blank v → stem p = ""))
    ∧ (∃ v, track_fields st' !! "track_num" = Some v
            ∧ (blank v →
               ∃ s, guess_fields p !! "track_num" = Some s
                    ∧ py_int s = Ret 0))
    ∧ (∃ v, track_fields st' !! "disc" = Some v
            ∧ (blank v →
               ∃ s, guess_fields p !! "disc" = Some s ∧ py_int s = Ret 0)).
Proof.
  intros Htk Hak Hlen Hcount.
  destruct (read_custom_tags_returns p st Htk Hak Hlen)
    as (st1 & st' & tn & a & Er & Erd & Hvt & Hva & Hc & Hl & Ltn & La
        & Ha' & Hk' & Hsame & Hneg).
  pose proof (has_keys_elem _ _ Htk) as Htk'.
  pose proof (has_keys_elem _ _ Hak) as Hak'.
  exists st'. split; [done|]. rewrite Ha'. split_and!.
  - intros k Hk.
    destruct (Hak' k) as [v0 L0].
    { unfold keys. simpl. rewrite !elem_of_cons. tauto. }
    assert (∃ null, (k, null) ∈ _NULL_ALBUM_FIELDS ∧ ¬ blank null)
      as (null & Hin & Hnull).
    { unfold _NULL_ALBUM_FIELDS.
      destruct Hk as [->|[->| ->]]; eexists;
        (split; [rewrite !elem_of_cons; eauto 6 | done]). }
    rewrite (Hva k null v0 Hin L0), (guess_album_only p k Hk).
    eexists. split; [done|].
    intros [[_ ?]|?]%filled_album_blank; done.
  - assert ((("title", PStr "Unknown Album") : string * PyVal)
            ∈ _NULL_ALBUM_FIELDS) as Hin.
    { unfold _NULL_ALBUM_FIELDS. apply elem_of_cons. by left. }
    destruct (Hak' "title") as [v0 L0].
    { unfold keys. simpl. by left. }
    rewrite (Hva _ _ v0 Hin L0).
    change ("album_" +:+ "title") with "album_title".
    rewrite guess_album_title. eexists. split; [done|].
    intros [[? _]|[= ->]]%filled_album_blank; done.
  - assert ((("title", PStr "<Unknown Track>") : string * PyVal)
            ∈ _NULL_TRACK_FIELDS) as Hin.
    { unfold _NULL_TRACK_FIELDS. apply elem_of_cons. by left. }
    destruct (Htk' "title") as [v0 L0].
    { unfold keys. simpl. by left. }
    destruct (fmap_ret_inv _ _ (Hvt _ _ v0 Hin L0)) as (w & Lw & Fw).
    rewrite Hk' by done. exists w. split; [done|]. intros Hb.
    destruct (filled_blank _ _ _ _ Fw Hb)
      as [[_ ?]|(s0 & G & [[? _]|[_ ->]])]; try done.
    destruct (guess_title p) as (ti & Gt & Hti).
    apply Hti. congruence.
  - assert ((("track_num", PInt (-1)) : string * PyVal)
            ∈ _NULL_TRACK_FIELDS) as Hin.
    { unfold _NULL_TRACK_FIELDS. rewrite !elem_of_cons. eauto. }
    destruct (Htk' "track_num") as [v0 L0].
    { unfold keys. simpl. right. by left. }
    destruct (fmap_ret_inv _ _ (Hvt _ _ v0 Hin L0)) as (w & Lw & Fw).
    assert (w = tn) as -> by congruence.
    destruct (py_eq tn (PInt (-1))) eqn:E;
      [apply py_eq_eq in E | apply py_eq_neq in E].
    + destruct (Hneg E) as (Ln & Ec & _). rewrite Ln.
      eexists. split; [done|]. intros Hb%blank_int.
      destruct (py_eq (_last_added_album st) a); lia.
    + rewrite (Hsame E), Ltn. eexists. split; [done|]. intros Hb.
      destruct (filled_blank _ _ _ _ Fw Hb)
        as [[_ ?]|(s0 & G & [[_ ?]|[? _]])]; try done.
      by exists s0.
  - assert ((("disc", PInt 1) : string * PyVal) ∈ _NULL_TRACK_FIELDS)
      as Hin.
    { unfold _NULL_TRACK_FIELDS. rewrite !elem_of_cons. eauto. }
    destruct (Htk' "disc") as [v0 L0].
    { unfold keys. simpl. right. right. by left. }
    destruct (fmap_ret_inv _ _ (Hvt _ _ v0 Hin L0)) as (w & Lw & Fw).
    rewrite Hk' by done. exists w. split; [done|]. intros Hb.
    destruct (filled_blank _ _ _ _ Fw Hb)
      as [[_ ?]|(s0 & G & [[_ ?]|[? _]])]; try done.
    by exists s0.
Qed.

(** For the untagged "Song.flac" the hook returns and leaves the track
    title and the album title filled. *)
Lemma blank_only_from_blank_guess_sample :
  has_keys _NULL_TRACK_FIELDS blank_track_fields
  ∧ has_keys _NULL_ALBUM_FIELDS blank_album_fields
  ∧ ∃ st',
      read_custom_tags plain_path
        (fresh blank_track_fields blank_album_fields) = (Ret tt, st')
      ∧ ∃ v, track_fields st' !! "title" = Some v
             ∧ (blank v → stem plain_path = "").
Proof.
  assert (has_keys _NULL_TRACK_FIELDS blank_track_fields) as Ht.
  { repeat constructor; vm_compute; eauto. }
  assert (has_keys _NULL_ALBUM_FIELDS blank_album_fields) as Ha.
  { repeat constructor; vm_compute; eauto. }
  split; [exact Ht|]. split; [exact Ha|].
  destruct (blank_only_from_blank_guess plain_path
              (fresh blank_track_fields blank_album_fields) Ht Ha)
    as (st' & Hrun & _ & _ & Htitle & _).
  - vm_compute. lia.
  - reflexivity.
  - exists st'. split; [exact Hrun | exact Htitle].
Defined.

(** X10. A call for a track that has a track number, from a tag other
    than -1 or, with a blank tag, from the digits of the stem, leaves the
    counter and the remembered album as they were: numbered tracks between
    the unnumbered ones of an album do not disturb the numbering. *)
Theorem numbered_track_keeps_counter p st v :
  has_keys _NULL_TRACK_FIELDS (track_fields st) →
  has_keys _NULL_ALBUM_FIELDS (album_fields st) →
  (String.length (stem p) ≤ int_max_str_digits)%nat →
  track_fields st !! "track_num" = Some v →
  (¬ blank v ∧ v ≠ PInt (-1))
  ∨ (blank v ∧ is_Some (guess_fields p !! "track_num")) →
  ∃ st',
    read_custom_tags p st = (Ret tt, st')
    ∧ _null_track_num_count st' = _null_track_num_count st
    ∧ _last_added_album st' = _last_added_album st
    ∧ ∃ n, track_fields st' !! "track_num" = Some n ∧ n ≠ PInt (-1).
Proof.
  intros Htk Hak Hlen L Hv.
  destruct (read_custom_tags_returns p st Htk Hak Hlen)
    as (st1 & st' & tn & a & Er & Erd & Hvt & Hva & Hc & Hl & Ltn & La
        & Ha' & Hk' & Hsame & Hneg).
  assert ((("track_num", PInt (-1)) : string * PyVal)
          ∈ _NULL_TRACK_FIELDS) as Hin.
  { unfold _NULL_TRACK_FIELDS. rewrite !elem_of_cons. eauto. }
  destruct (fmap_ret_inv _ _ (Hvt _ _ v Hin L)) as (w & Lw & Fw).
  assert (w = tn) as -> by congruence.
  assert (tn ≠ PInt (-1)) as Hne.
  { unfold filled, blank in *.
    destruct Hv as [[Hb Hv]|[Hb [s G]]].
    - destruct (truthy v); [congruence | done].
    - rewrite Hb, G in Fw. simpl in Fw.
      destruct (guess_number_parses p "track_num" s Hlen (or_introl eq_refl)
                  G) as (n & En & Hn).
      rewrite En in Fw. injection Fw as <-. intros Heq.
      injection Heq as Heq. lia. }
  exists st'. rewrite (Hsame Hne) in Erd |- *.
  split; [done|]. split; [done|]. split; [done|]. exists tn. by split.
Qed.

(** A file tagged with track number 7 does not touch a counter of 5. *)
Lemma numbered_track_keeps_counter_sample :
  ∃ st',
    read_custom_tags plain_path
      (mkState numbered_track_fields blank_album_fields 5
         (PStr "My Album")) = (Ret tt, st')
    ∧ _null_track_num_count st' = 5
    ∧ _last_added_album st' = PStr "My Album"
    ∧ ∃ n, track_fields st' !! "track_num" = Some n ∧ n ≠ PInt (-1).
Proof.
  apply (numbered_track_keeps_counter plain_path
           (mkState numbered_track_fields blank_album_fields 5
              (PStr "My Album")) (PInt 7)).
  - repeat constructor; vm_compute; eauto.
  - repeat constructor; vm_compute; eauto.
  - vm_compute. lia.
  - reflexivity.
  - left. split; [by vm_compute | discriminate].
Defined.

(** X12. A track number tag of -1 is not kept as tag data: the
    Disambiguator takes it for its sentinel and renumbers the track from
    the counter, like a track without number. *)
Theorem minus_one_tag_is_renumbered p st :
  has_keys _NULL_TRACK_FIELDS (track_fields st) →
  has_keys _NULL_ALBUM_FIELDS (album_fields st) →
  (String.length (stem p) ≤ int_max_str_digits)%nat →
  track_fields st !! "track_num" = Some (PInt (-1)) →
  ∃ st' a,
    read_custom_tags p st = (Ret tt, st')
    ∧ album_fields st' !! "title" = Some a
    ∧ _last_added_album st' = a
    ∧ _null_track_num_count st' =
      (if py_eq (_last_added_album st) a
       then _null_track_num_count st + 1 else 1)
    ∧ track_fields st' !! "track_num" =
      Some (PInt (- _null_track_num_count st')).
Proof.
  intros Htk Hak Hlen L.
  destruct (read_custom_tags_returns p st Htk Hak Hlen)
    as (st1 & st' & tn & a & Er & Erd & Hvt & Hva & Hc & Hl & Ltn & La
        & Ha' & Hk' & Hsame & Hneg).
  assert ((("track_num", PInt (-1)) : string * PyVal)
          ∈ _NULL_TRACK_FIELDS) as Hin.
  { unfold _NULL_TRACK_FIELDS. rewrite !elem_of_cons. eauto. }
  destruct (fmap_ret_inv _ _ (Hvt _ _ _ Hin L)) as (w & Lw & Fw).
  assert (w = tn) as -> by congruence.
  unfold filled in Fw. simpl in Fw. injection Fw as <-.
  destruct (Hneg eq_refl) as (Ln & Ec & El).
  exists st', a. rewrite Ha'. split_and!; done.
Qed.

(** With "My Album" remembered and the counter at 1, a tag of -1 becomes
    -2. *)
Lemma minus_one_tag_is_renumbered_sample :
  ∃ st' a,
    read_custom_tags plain_path
      (mkState minus_one_track_fields blank_album_fields 1
         (PStr "My Album")) = (Ret tt, st')
    ∧ album_fields st' !! "title" = Some a
    ∧ _last_added_album st' = a
    ∧ _null_track_num_count st' =
      (if py_eq (PStr "My Album") a then 1 + 1 else 1)
    ∧ track_fields st' !! "track_num" =
      Some (PInt (- _null_track_num_count st')).
Proof.
  apply (minus_one_tag_is_renumbered plain_path
           (mkState minus_one_track_fields blank_album_fields 1
              (PStr "My Album"))).
  - repeat constructor; vm_compute; eauto.
  - repeat constructor; vm_compute; eauto.
  - vm_compute. lia.
  - reflexivity.
Defined.

End ReadHookTotal.

(** ** Albums taken in turn *)

Section Interleaving.

Implicit Types (a b last : PyVal) (c : call) (count : Z).

(** X11. The numbering relies on the tracks of an album coming one after
    the other. When a track without number of another album comes between
    two tracks without number of one album, the counter restarts each
    time: whatever the counter and the remembered album were, the track of
    the other album and the second track of the one album both get -1. The
    first track continues the count when its album was the one remembered
    and gets -1 otherwise, and then the two tracks of the one album have
    the same number. *)
Theorem interleaved_albums_collide a b c1 c2 c3 count last :
  a ≠ b →
  sentinel_call a c1 → sentinel_call b c2 → sentinel_call a c3 →
  ∃ st1 st2 st3,
    ingest count last [c1; c2; c3] =
      [(Ret tt, st1); (Ret tt, st2); (Ret tt, st3)]
    ∧ track_fields st1 !! "track_num" =
      Some (PInt (- ((if py_eq last a then count else 0) + 1)))
    ∧ track_fields st2 !! "track_num" = Some (PInt (-1))
    ∧ track_fields st3 !! "track_num" = Some (PInt (-1))
    ∧ (last ≠ a →
       track_fields st1 !! "track_num" = track_fields st3 !! "track_num").
Proof.
  intros Hab H1 H2 H3. cbn [ingest].
  destruct (invoke_sentinel a c1 count last H1) as (st1 & E1 & L1 & C1 & A1).
  rewrite E1. cbn [snd fst].
  destruct (invoke_sentinel b c2 (_null_track_num_count st1)
              (_last_added_album st1) H2) as (st2 & E2 & L2 & C2 & A2).
  rewrite E2. cbn [snd fst].
  destruct (invoke_sentinel a c3 (_null_track_num_count st2)
              (_last_added_album st2) H3) as (st3 & E3 & L3 & C3 & A3).
  rewrite E3.
  assert (py_eq (_last_added_album st1) b = false) as E1b.
  { apply py_eq_neq. by rewrite A1. }
  assert (py_eq (_last_added_album st2) a = false) as E2a.
  { apply py_eq_neq. rewrite A2. congruence. }
  rewrite E1b in L2. rewrite E2a in L3.
  exists st1, st2, st3. split_and!; try done.
  intros Hla%py_eq_neq. rewrite Hla in L1. by rewrite L1, L3.
Qed.

(** "My Album", "Other Album", "My Album" into a fresh module: three
    times -1. *)
Lemma interleaved_albums_collide_sample :
  ∃ st1 st2 st3,
    ingest 0 (PStr "") interleaved_calls =
      [(Ret tt, st1); (Ret tt, st2); (Ret tt, st3)]
    ∧ track_fields st1 !! "track_num" =
      Some (PInt (- ((if py_eq (PStr "") (PStr "My Album") then 0 else 0)
                     + 1)))
    ∧ track_fields st2 !! "track_num" = Some (PInt (-1))
    ∧ track_fields st3 !! "track_num" = Some (PInt (-1))
    ∧ (PStr "" ≠ PStr "My Album" →
       track_fields st1 !! "track_num" = track_fields st3 !! "track_num").
Proof.
  apply (interleaved_albums_collide (PStr "My Album") (PStr "Other Album")
           my_album_first other_album_between my_album_second 0 (PStr ""));
    try discriminate.
  all: split; [repeat constructor; vm_compute; eauto|].
  all: split; [repeat constructor; vm_compute; eauto|].
  all: split; [by eexists|].
  all: split; [by vm_compute|].
  all: eexists; split; [reflexivity|]; right; split; reflexivity.
Defined.

End Interleaving.

(** ** Around persisting: the two batches and the write hook *)

Section Persisting.

Implicit Types (h : gmap nat LibItem) (items : list nat) (r : nat).
Implicit Types (t : Track) (audio_file : MediaFile).

(** X13. What a pre-persist hook does depends only on which items are
    listed, not on their order or on how often one is listed. *)
Theorem normalizer_depends_on_membership items items' h :
  (∀ r, r ∈ items ↔ r ∈ items') →
  process_new_items items h = process_new_items items' h
  ∧ process_changed_items items h = process_changed_items items' h.
Proof.
  intros Hmem.
  assert (process_new_items items h = process_new_items items' h) as E.
  { apply map_eq. intros r. rewrite !process_new_items_lookup.
    destruct (decide (r ∈ items)) as [Hin|Hnin];
      destruct (decide (r ∈ items')) as [Hin'|Hnin']; try done;
      exfalso; by apply Hmem in Hin || apply Hmem in Hin'. }
  split; [done|].
  rewrite <- (hooks_agree items h), <- (hooks_agree items' h). done.
Qed.

(** The list 1, 2, 1 does what the list 2, 1 does. *)
Lemma normalizer_depends_on_membership_sample :
  process_new_items [1; 2; 1]%nat sample_heap =
    process_new_items [2; 1]%nat sample_heap
  ∧ process_changed_items [1; 2; 1]%nat sample_heap =
    process_changed_items [2; 1]%nat sample_heap.
Proof.
  apply normalizer_depends_on_membership.
  intros r. rewrite !elem_of_cons. pose proof (not_elem_of_nil r). tauto.
Defined.

(** X14. The batches compose: a hook on two lists put together is the
    hook on the first followed by the hook on the second, and the hook for
    new items and the hook for changed items can run in either order. *)
Theorem normalizer_batches_compose items items' h :
  process_new_items (items ++ items') h =
    process_new_items items' (process_new_items items h)
  ∧ process_new_items items (process_changed_items items' h) =
    process_changed_items items' (process_new_items items h).
Proof.
  split.
  - unfold process_new_items. apply foldl_app.
  - rewrite <- (hooks_agree items' h).
    rewrite <- (hooks_agree items' (process_new_items items h)).
    apply map_eq. intros r. rewrite !process_new_items_lookup.
    destruct (decide (r ∈ items)); destruct (decide (r ∈ items'));
      try done.
Qed.

(** X15. A pre-persist hook creates and drops no object, keeps the kind
    of every object, and leaves no listed track with a negative track
    number. *)
Theorem normalizer_postcondition items h :
  dom (process_new_items items h) = dom h
  ∧ (∀ r t', r ∈ items →
       process_new_items items h !! r = Some (ITrack t') →
       0 ≤ track_num t')
  ∧ (∀ r, is_Some (h !! r) ↔ is_Some (process_new_items items h !! r)).
Proof.
  assert (∀ r, is_Some (h !! r) ↔
               is_Some (process_new_items items h !! r)) as Hsome.
  { intros r. rewrite process_new_items_lookup.
    case_decide; [|done]. by rewrite fmap_is_Some. }
  split_and!; [|  |done].
  - apply set_eq. intros r. rewrite !elem_of_dom. by rewrite <- Hsome.
  - intros r t' Hin. rewrite process_new_items_lookup.
    rewrite decide_True by done.
    destruct (h !! r) as [[t| |]|]; simpl; try done.
    destruct (track_num t <? 0) eqn:E; intros [= <-]; simpl; [lia|].
    by apply Z.ltb_ge.
Qed.

(** The dict [nullTags] in closed form. *)
Lemma null_tags_run t audio_file :
  null_tags t audio_file =
  match no_track_num t audio_file with
  | Ret c =>
      let marked : gmap string PyVal :=
        if c then <["track" := PNone]> ∅ else ∅ in
      Ret (if py_eq (date audio_file) (PDate date_min)
           then <["date" := PNone]> marked else marked)
  | Raise e => Raise e
  end.
Proof.
  unfold null_tags. by destruct (no_track_num t audio_file) as [[]|].
Qed.

(** Saving with a track number of at most 0: the dict names the track, and
    the date when it is the sentinel date; in the file that is saved the
    track reads as [None] and the date is not the sentinel date. *)
Lemma write_unnumbered t audio_file :
  track_num t ≤ 0 →
  ∃ nullTags saved,
    null_tags t audio_file = Ret nullTags
    ∧ saved = update audio_file nullTags
    ∧ write_custom_tags t audio_file = Ret saved
    ∧ nullTags !! "track" = Some PNone
    ∧ nullTags !! "tracktotal" = None
    ∧ saved !! "track" = None
    ∧ date saved ≠ PDate date_min.
Proof.
  intros Hle. unfold write_custom_tags. rewrite null_tags_run.
  unfold no_track_num. apply Z.leb_le in Hle. rewrite Hle. cbn zeta.
  simpl. eexists _, _. split; [reflexivity|]. split; [reflexivity|].
  split; [reflexivity|].
  destruct (py_eq (date audio_file) (PDate date_min)) eqn:E.
  - split; [by simplify_map_eq|]. split; [by simplify_map_eq|].
    split; [apply update_marked; by simplify_map_eq|].
    unfold date, field. rewrite update_lookup. by simplify_map_eq.
  - apply py_eq_neq in E.
    split; [by simplify_map_eq|]. split; [by simplify_map_eq|].
    split; [apply update_marked; by simplify_map_eq|].
    unfold date, field in *. rewrite update_lookup.
    rewrite lookup_insert_ne, lookup_empty by done. simpl.
    by destruct (dropped _ _ "date").
Qed.

(** X16. From the Normalizer to the Tag Eraser: a listed track with a
    negative track number leaves the pre-persist hook with track number 0
    and its path, and for that track the write hook completes on any file
    and saves it without a track number. *)
Theorem negative_track_is_zeroed_then_erased items h r t audio_file :
  r ∈ items → h !! r = Some (ITrack t) → track_num t < 0 →
  ∃ t' saved,
    process_new_items items h !! r = Some (ITrack t')
    ∧ track_num t' = 0 ∧ path t' = path t
    ∧ write_custom_tags t' audio_file = Ret saved
    ∧ saved !! "track" = None.
Proof.
  intros Hin L Hneg.
  destruct (write_unnumbered (set_track_num t 0) audio_file)
    as (m & saved & _ & _ & Hw & _ & _ & Ht & _); [simpl; lia|].
  exists (set_track_num t 0), saved.
  rewrite process_new_items_lookup, decide_True, L by done. simpl.
  apply Z.ltb_lt in Hneg. rewrite Hneg. done.
Qed.

(** The track numbered -2 of the sample heap and an MP3 file whose track
    frame is "0/10". *)
Lemma negative_track_is_zeroed_then_erased_sample :
  ∃ t' saved,
    process_new_items [1; 2]%nat sample_heap !! 1%nat = Some (ITrack t')
    ∧ track_num t' = 0 ∧ path t' = path unnumbered_track
    ∧ write_custom_tags t' stale_file = Ret saved
    ∧ saved !! "track" = None.
Proof.
  apply (negative_track_is_zeroed_then_erased [1; 2]%nat sample_heap 1%nat
           unnumbered_track stale_file).
  - apply elem_of_cons. by left.
  - reflexivity.
  - vm_compute. reflexivity.
Defined.

(** X17. For a track number of at most 0 the write hook can run again
    on the file it has saved: it completes and saves the same file. *)
Theorem write_hook_idempotent_unnumbered t audio_file :
  track_num t ≤ 0 →
  ∃ saved,
    write_custom_tags t audio_file = Ret saved
    ∧ write_custom_tags t saved = Ret saved.
Proof.
  intros Hle.
  destruct (write_unnumbered t audio_file Hle)
    as (m & saved & _ & Es & Hw & Lt & Ltt & Ht & Hd).
  exists saved. split; [done|].
  unfold write_custom_tags. rewrite null_tags_run.
  unfold no_track_num. apply Z.leb_le in Hle. rewrite Hle. cbn zeta.
  apply py_eq_neq in Hd. rewrite Hd. simpl. f_equal.
  rewrite Es. by apply update_track_again.
Qed.

(** Twice on the MP3 file whose track frame is "0/10". *)
Lemma write_hook_idempotent_unnumbered_sample :
  ∃ saved,
    write_custom_tags zeroed_track stale_file = Ret saved
    ∧ write_custom_tags zeroed_track saved = Ret saved.
Proof.
  apply write_hook_idempotent_unnumbered. vm_compute. discriminate.
Defined.

(** X18. For a positive track number the write hook cannot run twice on
    a file whose track tag is at most 0: the first run removes the tag,
    and on the saved file the comparison of the missing tag with 0 raises
    TypeError. *)
Theorem write_hook_fails_on_rerun t audio_file n :
  0 < track_num t → track audio_file = PInt n → n ≤ 0 →
  ∃ saved,
    write_custom_tags t audio_file = Ret saved
    ∧ saved !! "track" = None
    ∧ write_custom_tags t saved = Raise TypeError.
Proof.
  intros Hpos Ht Hn.
  assert ((track_num t <=? 0) = false) as Hgt by (apply Z.leb_gt; lia).
  assert ((n <=? 0) = true) as Hle by (by apply Z.leb_le).
  unfold write_custom_tags. rewrite null_tags_run.
  unfold no_track_num. rewrite Hgt, Ht. simpl. rewrite Hle. cbn zeta.
  eexists. split; [reflexivity|].
  assert (∀ saved : MediaFile,
            saved !! "track" = None →
            bind_outcome (null_tags t saved)
              (λ nullTags, Ret (update saved nullTags)) = Raise TypeError)
    as Hraise.
  { intros saved Hs. rewrite null_tags_run. unfold no_track_num.
    rewrite Hgt. unfold track, field. by rewrite Hs. }
  destruct (py_eq (date audio_file) (PDate date_min)).
  - assert (update audio_file
              (<["date" := PNone]> (<["track" := PNone]> ∅)) !! "track"
            = None) as Hs by (apply update_marked; by simplify_map_eq).
    split; [done|]. by apply Hraise.
  - assert (update audio_file (<["track" := PNone]> ∅) !! "track" = None)
      as Hs by (apply update_marked; by simplify_map_eq).
    split; [done|]. by apply Hraise.
Qed.

(** Track number 2 in the library and a track frame of "0/10" in the
    file. *)
Lemma write_hook_fails_on_rerun_sample :
  ∃ saved,
    write_custom_tags second_track stale_file = Ret saved
    ∧ saved !! "track" = None
    ∧ write_custom_tags second_track saved = Raise TypeError.
Proof.
  apply (write_hook_fails_on_rerun second_track stale_file 0).
  - vm_compute. reflexivity.
  - reflexivity.
  - lia.
Defined.

(** X19. A file with real tags is saved as it is: when the track number
    of the item and the track tag of the file are positive and the date
    tag is not the sentinel date, the write hook returns the file
    unchanged. *)
Theorem write_hook_keeps_tagged_file t audio_file n :
  0 < track_num t → track audio_file = PInt n → 0 < n →
  date audio_file ≠ PDate date_min →
  null_tags t audio_file = Ret ∅
  ∧ write_custom_tags t audio_file = Ret audio_file.
Proof.
  intros Hpos Ht Hn Hd.
  assert ((track_num t <=? 0) = false) as Hgt by (apply Z.leb_gt; lia).
  assert ((n <=? 0) = false) as Hle by (apply Z.leb_gt; lia).
  apply py_eq_neq in Hd.
  assert (null_tags t audio_file = Ret ∅) as E.
  { rewrite null_tags_run. unfold no_track_num.
    rewrite Hgt, Ht. simpl. rewrite Hle. cbn zeta. by rewrite Hd. }
  split; [done|]. unfold write_custom_tags. rewrite E. simpl. f_equal.
  apply update_empty.
Qed.

(** Track 2 with its tags. *)
Lemma write_hook_keeps_tagged_file_sample :
  null_tags second_track tagged_file = Ret ∅
  ∧ write_custom_tags second_track tagged_file = Ret tagged_file.
Proof.
  apply (write_hook_keeps_tagged_file second_track tagged_file 2).
  - vm_compute. reflexivity.
  - reflexivity.
  - lia.
  - discriminate.
Defined.

End Persisting.

(** ** Reconciling twice *)

Section Idempotence.

Implicit Types (p : Path) (st : state) (v w null : PyVal).

Lemma filled_again null (guess : option string) v w :
  ¬ blank null → filled null guess v = Ret w →
  filled null guess w = Ret w.
Proof.
  unfold filled, blank. intros Hnull.
  destruct (truthy v) eqn:T.
  { intros [= <-]. by rewrite T. }
  destruct guess as [s|].
  - destruct (is_int null).
    + destruct (py_int s) as [n|]; [|done]. intros [= <-].
      by destruct (truthy (PInt n)).
    + intros [= <-]. by destruct (truthy (PStr s)).
  - intros [= <-]. by destruct (truthy null).
Qed.

Lemma filled_album_again null (guess : option string) v :
  ¬ blank null →
  filled_album null guess (filled_album null guess v) =
  filled_album null guess v.
Proof.
  unfold filled_album, blank. intros Hnull.
  destruct (truthy v) eqn:T; [by rewrite T|].
  destruct guess as [s|].
  - by destruct (truthy (PStr s)).
  - by destruct (truthy null).
Qed.

Lemma table_values_not_blank (t : table) k null :
  t = _NULL_TRACK_FIELDS ∨ t = _NULL_ALBUM_FIELDS →
  (k, null) ∈ t → ¬ blank null.
Proof.
  intros [-> | ->] Hin;
    [unfold _NULL_TRACK_FIELDS in Hin | unfold _NULL_ALBUM_FIELDS in Hin];
    repeat (apply elem_of_cons in Hin as [[= -> ->]|Hin]);
    try done; by apply not_elem_of_nil in Hin.
Qed.

Lemma key_of_table (t : table) k :
  k ∈ keys t → ∃ null, (k, null) ∈ t.
Proof.
  unfold keys. intros ([k' null] & -> & Hin)%list_elem_of_fmap.
  by exists null.
Qed.

(** X21. Reconciling is idempotent: with all keys present and a stem
    within the conversion limit the Reconciler returns, and run again for
    the same path on the dicts it has filled it returns and changes
    nothing. *)
Theorem reconcile_idempotent p st :
  has_keys _NULL_TRACK_FIELDS (track_fields st) →
  has_keys _NULL_ALBUM_FIELDS (album_fields st) →
  (String.length (stem p) ≤ int_max_str_digits)%nat →
  ∃ st1,
    reconcile p st = (Ret tt, st1)
    ∧ reconcile p st1 = (Ret tt, st1).
Proof.
  intros Htk Hak Hlen.
  pose proof (has_keys_elem _ _ Htk) as Htk'.
  pose proof (has_keys_elem _ _ Hak) as Hak'.
  destruct (reconcile_ok p st Hak (fills_within_limit p st Htk Hlen))
    as (st1 & Er & Hvt & Hva & Hc & Hl).
  exists st1. split; [done|].
  assert (∀ k null, (k, null) ∈ _NULL_TRACK_FIELDS →
            ∃ w, track_fields st1 !! k = Some w
                  ∧ filled null (guess_fields p !! k) w = Ret w) as Ht1.
  { intros k null Hin.
    destruct (Htk' k) as [v L].
    { unfold keys. apply list_elem_of_fmap. by exists (k, null). }
    destruct (fmap_ret_inv _ _ (Hvt k null v Hin L)) as (w & Lw & Fw).
    exists w. split; [done|].
    apply (filled_again null _ v); [|done].
    apply (table_values_not_blank _NULL_TRACK_FIELDS k); auto. }
  assert (∀ k null, (k, null) ∈ _NULL_ALBUM_FIELDS →
            ∃ w, album_fields st1 !! k = Some w
                  ∧ filled_album null
                      (guess_fields p !! ("album_" +:+ k)) w = w) as Ha1.
  { intros k null Hin.
    destruct (Hak' k) as [v L].
    { unfold keys. apply list_elem_of_fmap. by exists (k, null). }
    eexists. split; [by apply (Hva k null v)|].
    apply filled_album_again.
    apply (table_values_not_blank _NULL_ALBUM_FIELDS k); auto. }
  destruct (reconcile_ok p st1) as (st2 & Er2 & Hvt2 & Hva2 & Hc2 & Hl2).
  { unfold has_keys. apply Forall_forall. intros k Hk.
    destruct (key_of_table _ _ Hk) as [null Hin].
    destruct (Ha1 k null Hin) as (w & -> & _). by eexists. }
  { intros k null Hin. destruct (Ht1 k null Hin) as (w & Lw & Fw).
    by exists w, w. }
  rewrite Er2. f_equal.
  pose proof (reconcile_frame p st1) as (_ & _ & Hkt & Hka).
  rewrite Er2 in Hkt, Hka. cbn [snd] in Hkt, Hka.
  assert (track_fields st2 = track_fields st1) as Et.
  { apply map_eq. intros k.
    destruct (decide (k ∈ keys _NULL_TRACK_FIELDS)) as [Hk|Hk];
      [|apply Hkt; by left].
    destruct (key_of_table _ _ Hk) as [null Hin].
    destruct (Ht1 k null Hin) as (w & Lw & Fw).
    destruct (fmap_ret_inv _ _ (Hvt2 k null w Hin Lw)) as (w' & Lw' & Fw').
    congruence. }
  assert (album_fields st2 = album_fields st1) as Ea.
  { apply map_eq. intros k.
    destruct (decide (k ∈ keys _NULL_ALBUM_FIELDS)) as [Hk|Hk];
      [|apply Hka; by left].
    destruct (key_of_table _ _ Hk) as [null Hin].
    destruct (Ha1 k null Hin) as (w & Lw & Fw).
    rewrite (Hva2 k null w Hin Lw), Lw. by rewrite Fw. }
  destruct st1, st2; simpl in *. congruence.
Qed.

(** The untagged "00 Intro.flac", reconciled twice. *)
Lemma reconcile_idempotent_sample :
  ∃ st1,
    reconcile zero_track_path (fresh blank_track_fields blank_album_fields) =
      (Ret tt, st1)
    ∧ reconcile zero_track_path st1 = (Ret tt, st1).
Proof.
  apply reconcile_idempotent.
  - repeat constructor; vm_compute; eauto.
  - repeat constructor; vm_compute; eauto.
  - vm_compute. lia.
Defined.

End Idempotence.

(** ** The counter over a run *)

Section Counter.

Implicit Types (p : Path) (st : state) (c : call) (calls : list call).

(** One call, returning or raising, keeps the counter from going below
    0. *)
Lemma read_custom_tags_counter p st :
  0 ≤ _null_track_num_count st →
  0 ≤ _null_track_num_count (read_custom_tags p st).2.
Proof.
  intros Hc. rewrite read_custom_tags_run.
  pose proof (reconcile_frame p st) as (Ec & _).
  destruct (reconcile p st) as [[[]|e] st1]; cbn [snd] in *; [|lia].
  rewrite disambiguate_run.
  destruct (track_fields st1 !! "track_num") as [tn|]; [|cbn [snd]; lia].
  destruct (py_eq tn (PInt (-1))); [|cbn [snd]; lia].
  destruct (album_fields st1 !! "title") as [a|]; [|cbn [snd]; lia].
  destruct (py_eq (_last_added_album st1) a);
    cbn [snd _null_track_num_count]; lia.
Qed.

(** X22. The counter never goes below 0: over any sequence of calls of
    the read hook from a counter that is not negative, whatever the paths
    and the dicts and whether the calls return or raise, the counter is at
    least 0 after every call. *)
Theorem counter_never_negative calls : ∀ count last r,
  0 ≤ count →
  r ∈ ingest count last calls →
  0 ≤ _null_track_num_count r.2.
Proof.
  induction calls as [|c calls IH]; intros count last r Hc Hin.
  { by apply not_elem_of_nil in Hin. }
  cbn [ingest] in Hin.
  pose proof (read_custom_tags_counter (call_path c)
                (mkState (call_track c) (call_album c) count last) Hc)
    as Hstep.
  fold (invoke count last c) in Hstep.
  apply elem_of_cons in Hin as [->|Hin]; [done|].
  eapply IH; [exact Hstep | exact Hin].
Qed.

(** After the first of the three untagged files of "My Album". *)
Lemma counter_never_negative_sample :
  0 ≤ _null_track_num_count
        (invoke 0 (PStr "") my_album_first).2.
Proof.
  apply (counter_never_negative [my_album_first] 0 (PStr "")); [lia|].
  apply elem_of_cons. by left.
Defined.

End Counter.
